(** * Wordle game engine: store, scoring and game lifecycle

    A shallow embedding of the Go packages [store] (wordleStore.go) and
    [game] (game.go) and the properties of the specification checked
    against them.

    Go strings are byte strings: they are modelled by [string], whose
    characters ([ascii]) are the 256 byte values.  A Go [error] is modelled by
    [option error], where [None] is the nil error.  A runtime panic (index or
    slice bound out of range) is modelled by [None] in the result of the
    function that panics. *)

From Stdlib Require Import Ascii String.
From stdpp Require Import base option list gmap strings sorting pretty.

Local Open Scope string_scope.
Local Open Scope nat_scope.

(** ** Errors *)

(** Go error values.  [ErrInvalidId] is the sentinel of the store package
    (returned by [validateId] and by [Delete]); [Errorf msg] is a value built
    by [fmt.Errorf(msg)].  [ErrNotFound] and [ErrWordInvalid] are the
    [NotFound] and [WordInvalid] entries of the specification's error
    taxonomy: no statement of wordleStore.go or game.go builds them. *)
Inductive error : Type :=
  | ErrInvalidId
  | ErrNotFound
  | ErrWordInvalid
  | Errorf (msg : string).

#[global] Instance error_eq_dec : EqDecision error.
Proof. solve_decision. Defined.

(** ** The store (wordleStore.go) *)

Section Store.
(** [interface{}] values holding a [V]: [None] is the nil interface. *)
Context {V : Type}.

Definition content : Type := option V.

(** The struct [wordleStore].  The model is sequential, so the mutex [mu]
    has no state: Lock/Unlock and RLock/RUnlock are no-ops. *)
Record wordleStore : Type := mkStore { games : gmap string content }.

(** [validateId]: the id must not be empty. *)
Definition validateId (id : string) : option error :=
  if (String.length id <? 1)%nat then Some ErrInvalidId else None.

(** [Save]: insert or overwrite. *)
Definition Save (s : wordleStore) (id : string) (c : content)
  : option error * wordleStore :=
  match validateId id with
  | Some err => (Some err, s)
  | None => (None, mkStore (<[id := c]> (games s)))
  end.

(** [Load]: the content, or nil with a nil error when there is none. *)
Definition Load (s : wordleStore) (id : string) : content * option error :=
  match validateId id with
  | Some err => (None, Some err)
  | None =>
      match games s !! id with
      | None => (None, None)
      | Some c => (c, None)
      end
  end.

(** [Exists]. *)
Definition Exists (s : wordleStore) (id : string) : bool * option error :=
  match validateId id with
  | Some err => (false, Some err)
  | None =>
      match games s !! id with
      | None => (false, None)
      | Some _ => (true, None)
      end
  end.

(** [Delete]: removes the entry; the [else] branch of the source returns
    [ErrInvalidId] when the id has no entry. *)
Definition Delete (s : wordleStore) (id : string)
  : option error * wordleStore :=
  match validateId id with
  | Some err => (Some err, s)
  | None =>
      match games s !! id with
      | Some _ => (None, mkStore (delete id (games s)))
      | None => (Some ErrInvalidId, s)
      end
  end.

(** [PurgeAll]: [for k := range s.games { delete(s.games, k) }]. *)
Definition PurgeAll (s : wordleStore) : option error * wordleStore :=
  (None, mkStore (foldr delete (games s) (map fst (map_to_list (games s))))).

(** [getWordleStore]: the singleton [singleStore] ([None] is the nil
    pointer) is created empty on first use.  The [once] gate is reset
    together with [singleStore], so it is open exactly when the pointer is
    nil.  The result is the store and the new value of the global. *)
Definition getWordleStore (singleStore : option wordleStore)
  : wordleStore * option wordleStore :=
  match singleStore with
  | Some s => (s, singleStore)
  | None => let s := mkStore ∅ in (s, Some s)
  end.

(** [WordleStore]: never fails. *)
Definition WordleStore (singleStore : option wordleStore)
  : (wordleStore * option error) * option wordleStore :=
  let '(ws, single) := getWordleStore singleStore in ((ws, None), single).

(** [resetWordleStore]. *)
Definition resetWordleStore (singleStore : option wordleStore)
  : option wordleStore := None.
End Store.

Arguments content : clear implicits.
Arguments wordleStore : clear implicits.

(** ** Go string primitives used by game.go *)

(** [s[i]]: the byte at index [i]; [None] is the index-out-of-range panic. *)
Definition index (s : string) (i : nat) : option ascii := String.get i s.

(** [s[i:j]]: panics unless [i <= j <= len(s)]. *)
Definition slice (s : string) (i j : nat) : option string :=
  if ((i <=? j) && (j <=? String.length s))%nat
  then Some (String.substring i (j - i) s)
  else None.

(** [string(b)] for a byte [b]: the UTF-8 encoding of the code point [b].
    Below 0x80 it is the byte itself; from 0x80 on it is the two bytes
    [0xC0 | b>>6] and [0x80 | b&0x3F]. *)
Definition string_of_byte (b : ascii) : string :=
  match b with
  | Ascii b0 b1 b2 b3 b4 b5 b6 false => String b EmptyString
  | Ascii b0 b1 b2 b3 b4 b5 b6 true =>
      String (Ascii b6 true false false false false true true)
        (String (Ascii b0 b1 b2 b3 b4 b5 false true) EmptyString)
  end.

(** [strings.Count(s, substr)] for a non-empty [substr]: the number of
    non-overlapping instances of [substr] in [s], scanning from the left.
    [skip] is the number of bytes of the last match still to step over.
    (game.go never passes an empty [substr].) *)
Fixpoint countFrom (substr : string) (skip : nat) (s : string) : nat :=
  match s with
  | EmptyString => 0
  | String _ s' =>
      match skip with
      | S k => countFrom substr k s'
      | O =>
          if String.prefix substr s
          then S (countFrom substr (String.length substr - 1) s')
          else countFrom substr 0 s'
      end
  end.

Definition strings_Count (s substr : string) : nat := countFrom substr 0 s.

(** ** Data of the game package *)

(** [GameStatusType] and its constants. *)
Inductive GameStatusType : Type := InPlay | Won | Lost | Resigned.

#[global] Instance GameStatusType_eq_dec : EqDecision GameStatusType.
Proof. solve_decision. Defined.

(** [GameStatusType.String]. *)
Definition GameStatusType_String (t : GameStatusType) : string :=
  match t with
  | InPlay => "InPlay"
  | Won => "Won"
  | Lost => "Lost"
  | Resigned => "Resigned"
  end.

(** Modelled from the spec: the declaration of the type [LetterHint] and of
    its constants is not among the sources; the specification gives the
    enumeration Green, Yellow, Grey. *)
Inductive LetterHint : Type := Green | Yellow | Grey.

#[global] Instance LetterHint_eq_dec : EqDecision LetterHint.
Proof. solve_decision. Defined.

(** Modelled from the spec: the declaration of the struct [WordleAttempt] is
    not among the sources; game.go uses the fields [TryWord], [IsValidWord] and
    [TryResult], the last one a slice of [LetterHint]. *)
Record WordleAttempt : Type := mkAttempt {
  TryWord : string;
  IsValidWord : bool;
  TryResult : list LetterHint
}.

(** The struct [wordleGame].  [Attempts] is a slice of pointers to attempts
    that only the game holds: it is modelled by the list of the attempts. *)
Record wordleGame : Type := mkGame {
  Id : string;
  Status : GameStatusType;
  SecretWord : string;
  Attempts : list WordleAttempt
}.

Definition set_Status (st : GameStatusType) (g : wordleGame) : wordleGame :=
  mkGame (Id g) st (SecretWord g) (Attempts g).

Definition set_Attempts (l : list WordleAttempt) (g : wordleGame) : wordleGame :=
  mkGame (Id g) (Status g) (SecretWord g) l.

(** Modelled from the spec: the package [config] is not among the sources; the
    specification gives the word length 5 (the test of the dictionary checks
    the same length). *)
Definition CONFIG_GAME_WORDLENGTH : nat := 5.

(** ** Scoring (scoreWord) *)

(** The first inner test of the loop of [scoreWord]:
    [countLeft > 0] and [Count(tryWord[0:i], c) <= countLeft].  [tryWord[0:i]]
    is evaluated only when [countLeft > 0]. *)
Definition creditLeft (secret tryWord : string) (i : nat) (c : string)
  : option bool :=
  sl ← slice secret 0 i;
  let countLeft := strings_Count sl c in
  if (0 <? countLeft)%nat then
    tl ← slice tryWord 0 i;
    Some (strings_Count tl c <=? countLeft)%nat
  else Some false.

(** The second inner test: the same on [secret[i:CONFIG_GAME_WORDLENGTH-1]]
    and [tryWord[i:CONFIG_GAME_WORDLENGTH-1]]. *)
Definition creditRight (secret tryWord : string) (i : nat) (c : string)
  : option bool :=
  sr ← slice secret i (CONFIG_GAME_WORDLENGTH - 1);
  let countRight := strings_Count sr c in
  if (0 <? countRight)%nat then
    tr ← slice tryWord i (CONFIG_GAME_WORDLENGTH - 1);
    Some (strings_Count tr c <=? countRight)%nat
  else Some false.

(** The body of the loop of [scoreWord] for index [i], up to the value that
    is written to [score[i]].  [None] is a panic of an index or slice
    expression.  The outcomes are the four [score[i] = ...] statements of
    the source. *)
Definition hintAt (secret tryWord : string) (i : nat) : option LetterHint :=
  si ← index secret i;
  ti ← index tryWord i;
  if decide (si = ti) then Some Green
  else
    let c := string_of_byte ti in
    if (0 <? strings_Count secret c)%nat then
      l ← creditLeft secret tryWord i c;
      if l : bool then Some Yellow
      else
        r ← creditRight secret tryWord i c;
        if r : bool then Some Yellow else Some Grey
    else Some Grey.

(** [score[i] = h]: panics when [i] is out of range. *)
Definition store_hint (score : list LetterHint) (i : nat) (h : LetterHint)
  : option (list LetterHint) :=
  if (i <? length score)%nat then Some (<[i := h]> score) else None.

(** [for i := ...; i < CONFIG_GAME_WORDLENGTH; i++]: [n] iterations are left
    and [i] is the loop variable. *)
Fixpoint scoreLoop (secret tryWord : string) (n i : nat) (score : list LetterHint)
  : option (list LetterHint) :=
  match n with
  | O => Some score
  | S n' =>
      h ← hintAt secret tryWord i;
      score' ← store_hint score i h;
      scoreLoop secret tryWord n' (S i) score'
  end.

(** [scoreWord].  [result] is the pointer to the slice ([None] is nil); the
    slice shares its backing array with the caller's, so the hints written
    are returned with the error.  The outer [None] is a panic. *)
Definition scoreWord (g : wordleGame) (tryWord : string)
    (result : option (list LetterHint))
  : option (list LetterHint * option error) :=
  match result with
  | None => Some ([], Some (Errorf "nil result provided"))
  | Some score =>
      score' ← scoreLoop (SecretWord g) tryWord CONFIG_GAME_WORDLENGTH 0 score;
      Some (score', None)
  end.

(** ** Collaborators of game.go that are not among the sources *)

(** Functions of the game package that game.go calls and whose bodies are
    not among the sources.  The engine is defined over any such functions. *)
Class Helpers : Type := {
  (** [validateWord(word, secret)]: the normalised word and an error. *)
  validateWord : string → string → string * option error;
  (** The method [isWinner] of an attempt. *)
  isWinner : WordleAttempt → bool;
  (** The zero value of [LetterHint], which fills a slice built by [make]. *)
  zeroHint : LetterHint
}.

(** What the reports are built with.  [WordleAttempt_Sprint a] is
    [fmt.Sprint(a)] for an attempt (its [String] method is not among the
    sources).  The rest is the part of encoding/json that game.go uses on
    [map[string]interface{}]: [jvalue] is the type of the values of such a
    map, [jstring] and [jint] box a string and an int, [json_Marshal] is
    [json.Marshal] and [json_Unmarshal] is [json.Unmarshal] into an empty
    map. *)
Class Reporting : Type := {
  WordleAttempt_Sprint : WordleAttempt → string;
  jvalue : Type;
  jstring : string → jvalue;
  jint : nat → jvalue;
  json_Marshal : gmap string jvalue → string * option error;
  json_Unmarshal : string → gmap string jvalue * option error
}.

(** github.com/rs/xid: [xid.New().String()] is the 20-character base32 text
    of a fresh identifier.  The model keeps that it is a string with a first
    character. *)
Record xid : Type := mkXid { xid_head : ascii; xid_tail : string }.

Definition xid_String (x : xid) : string := String (xid_head x) (xid_tail x).

(** The address of a [wordleGame] object.  The store holds the pointer that
    [Save] is given, not a copy of the game. *)
Definition addr : Type := nat.

(** ** The engine (game.go) *)

Section Engine.
Context {hp : Helpers} {rp : Reporting}.

(** [statusReport]. *)
Definition statusReport (g : wordleGame) : string :=
  let s : gmap string jvalue := ∅ in
  let s := <["GameStatus" := jstring (GameStatusType_String (Status g))]> s in
  let s := <["AttemptsUsed" := jint (length (Attempts g))]> s in
  let s := if decide (Status g = Won)
           then <["WinningAttempt" := jint (length (Attempts g))]> s
           else s in
  match json_Marshal s with
  | (_, Some _) => "{}"
  | (b, None) => b
  end.

(** [turnReport].  The loop [for k, v := range arMap { report[k] = v }]
    is the union of the two maps in which [arMap] wins. *)
Definition turnReport (g : wordleGame) (a : WordleAttempt) : string :=
  let sr := statusReport g in
  match json_Unmarshal sr with
  | (_, Some _) => "{}"
  | (report, None) =>
      let ar := WordleAttempt_Sprint a in
      match json_Unmarshal ar with
      | (_, Some _) => "{}"
      | (arMap, None) =>
          let report := arMap ∪ report in
          match json_Marshal report with
          | (_, Some _) => "{}"
          | (b, None) => b
          end
      end
  end.

(** [addAttempt]: appends a new attempt and returns it; the second
    component is the position of the new attempt in [Attempts], which
    stands for the pointer [wa]. *)
Definition addAttempt (g : wordleGame) : wordleGame * nat * WordleAttempt :=
  let wa := mkAttempt "" false (replicate CONFIG_GAME_WORDLENGTH zeroHint) in
  (set_Attempts (Attempts g ++ [wa]) g, length (Attempts g), wa).

(** A write through the pointer to the attempt at position [i]. *)
Definition write_attempt (i : nat) (a : WordleAttempt) (g : wordleGame)
  : wordleGame :=
  set_Attempts (<[i := a]> (Attempts g)) g.

(** [Create].  [generated] is the result of [dictionary.GenerateWord()]
    (used only when [secretWord] is empty), [x] the fresh xid and [self]
    the address of the new game.  The result is the game ([None] is nil),
    the error and the new value of the store singleton. *)
Definition Create (secretWord : string) (generated : string * option error)
    (x : xid) (self : addr) (singleStore : option (wordleStore addr))
  : (option wordleGame * option error) * option (wordleStore addr) :=
  let '(secretWord, gerr) :=
    if (String.length secretWord <? 1)%nat then generated
    else (secretWord, None) in
  match gerr with
  | Some err => ((None, Some err), singleStore)
  | None =>
      match validateWord secretWord secretWord with
      | (_, Some err) => ((None, Some err), singleStore)
      | (sw, None) =>
          let game := mkGame (xid_String x) InPlay sw [] in
          match WordleStore singleStore with
          | ((_, Some err), single) => ((Some game, Some err), single)
          | ((s, None), _) =>
              match Save s (Id game) (Some self) with
              | (Some err, s') => ((Some game, Some err), Some s')
              | (None, s') => ((Some game, None), Some s')
              end
          end
      end
  end.

(** The result of [Play] and [Resign]: the report and the error, the game
    after the call and the store singleton after the call. *)
Definition outcome : Type :=
  (string * option error) * wordleGame * option (wordleStore addr).

(** [Play].  [self] is the receiver's address and [g] the receiver's
    fields.  [None] is a panic raised by [scoreWord]. *)
Definition Play (self : addr) (tryWord : string) (g : wordleGame)
    (singleStore : option (wordleStore addr)) : option outcome :=
  if decide (Status g ≠ InPlay) then
    Some ((statusReport g, Some (Errorf "game is finished")), g, singleStore)
  else if (6 <=? length (Attempts g))%nat then
    let g := set_Status Lost g in
    Some ((statusReport g, Some (Errorf "out of turns")), g, singleStore)
  else
    match validateWord tryWord (SecretWord g) with
    | (_, Some err) => Some (("{}", Some err), g, singleStore)
    | (tw, None) =>
        let '(g, p, attempt) := addAttempt g in
        let attempt := mkAttempt tw true (TryResult attempt) in
        let g := write_attempt p attempt g in
        (* score shares its backing array with attempt.TryResult *)
        let score := TryResult attempt in
        '(score, serr) ← scoreWord g tw (Some score);
        let attempt := mkAttempt (TryWord attempt) (IsValidWord attempt) score in
        let g := write_attempt p attempt g in
        match serr with
        | Some err => Some ((turnReport g attempt, Some err), g, singleStore)
        | None =>
            let g :=
              if isWinner attempt then set_Status Won g
              else if (6 <=? length (Attempts g))%nat then set_Status Lost g
              else g in
            match WordleStore singleStore with
            | ((_, Some err), single) =>
                Some ((turnReport g attempt, Some err), g, single)
            | ((gs, None), _) =>
                match Save gs (Id g) (Some self) with
                | (Some err, gs') =>
                    Some ((turnReport g attempt, Some err), g, Some gs')
                | (None, gs') =>
                    Some ((turnReport g attempt, None), g, Some gs')
                end
            end
        end
    end.

(** [Resign]. *)
Definition Resign (self : addr) (g : wordleGame)
    (singleStore : option (wordleStore addr)) : outcome :=
  let g := set_Status Resigned g in
  match WordleStore singleStore with
  | ((_, Some err), single) => ((statusReport g, Some err), g, single)
  | ((gs, None), _) =>
      match Save gs (Id g) (Some self) with
      | (Some err, gs') => ((statusReport g, Some err), g, Some gs')
      | (None, gs') => ((statusReport g, None), g, Some gs')
      end
  end.

(** The game that a call of [Play] leaves once the validated guess [tw]
    has been scored with the hints [hints]: the attempt is recorded and
    the end-of-game conditions are checked. *)
Definition recorded (g : wordleGame) (tw : string) (hints : list LetterHint)
  : wordleGame :=
  let a := mkAttempt tw true hints in
  let g := set_Attempts (Attempts g ++ [a]) g in
  if isWinner a then set_Status Won g
  else if 6 <=? length (Attempts g) then set_Status Lost g
  else g.

(** One returning call of [Play] or [Resign] on a game, with any
    arguments and any store. *)
Inductive step : wordleGame → wordleGame → Prop :=
  | step_Play g self tryWord single r g' single' :
      Play self tryWord g single = Some (r, g', single') → step g g'
  | step_Resign g self single r g' single' :
      Resign self g single = (r, g', single') → step g g'.

(** The games that [Create] returns and those that a sequence of returning
    calls of [Play] and [Resign] leaves. *)
Inductive reachable : wordleGame → Prop :=
  | reachable_Create secretWord generated x self single g err single' :
      Create secretWord generated x self single = ((Some g, err), single') →
      reachable g
  | reachable_step g g' : reachable g → step g g' → reachable g'.

(** The invariant of the games that the engine builds, whatever the
    helpers: the id is not empty, there are at most six attempts, and fewer
    than six while the game is in play. *)
Definition well_formed (g : wordleGame) : Prop :=
  Id g ≠ "" ∧ length (Attempts g) ≤ 6 ∧
  (Status g = InPlay → length (Attempts g) < 6).

(** [Play] called with each word of [ws] in turn, on the game at address
    [self]; [None] if a call panics. *)
Fixpoint play_words (self : addr) (ws : list string) (g : wordleGame)
    (single : option (wordleStore addr))
  : option (wordleGame * option (wordleStore addr)) :=
  match ws with
  | [] => Some (g, single)
  | w :: ws' =>
      '(_, g', single') ← Play self w g single;
      play_words self ws' g' single'
  end.
End Engine.

(** [Retrieve].  The store of the engine holds pointers to games only, so
    the type assertion [content.(Game)] fails exactly on the nil interface,
    which is what [Load] returns for an id without entry.  The result is the
    pointer to the game ([None] is nil), the error and the new value of the
    store singleton. *)
Definition Retrieve (id : string) (singleStore : option (wordleStore addr))
  : (option addr * option error) * option (wordleStore addr) :=
  match WordleStore singleStore with
  | ((_, Some err), single) => ((None, Some err), single)
  | ((s, None), single) =>
      match Load s id with
      | (_, Some err) => ((None, Some err), single)
      | (Some game, None) => ((Some game, None), single)
      | (None, None) =>
          ((None, Some (Errorf "content is not a game")), single)
      end
  end.

(** ** The helpers as the specification describes them *)

(** Modelled from the spec: lower-case normalisation ([strings.ToLower]) of
    the bytes A to Z; the function that normalises the words is not among
    the sources. *)
Definition lower_byte (b : ascii) : ascii :=
  let n := N_of_ascii b in
  if ((65 <=? n) && (n <=? 90))%N then ascii_of_N (n + 32) else b.

(** Modelled from the spec: the normalisation applied to every byte of the
    word. *)
Fixpoint ToLower (s : string) : string :=
  match s with
  | EmptyString => EmptyString
  | String b s' => String (lower_byte b) (ToLower s')
  end.

(** Modelled from the spec: [dictionary.IsWordValid], not among the sources
    (only the test of the package is): a case-insensitive membership test
    against the loaded words [words]. *)
Definition IsWordValid (words : list string) (word : string) : bool :=
  existsb (String.eqb (ToLower word)) (map ToLower words).

(** Modelled from the spec: [validateWord], not among the sources: the word
    must have exactly the configured length and pass the membership test; the
    result is the word normalised to lower case, or the WordInvalid error. *)
Definition validateWord_spec (words : list string) (word secret : string)
  : string * option error :=
  if ((String.length word =? CONFIG_GAME_WORDLENGTH)%nat
      && IsWordValid words word)%bool
  then (ToLower word, None)
  else ("", Some ErrWordInvalid).

(** Modelled from the spec: [isWinner], not among the sources: the guess is
    a full match when all its hints are Green. *)
Definition isWinner_spec (a : WordleAttempt) : bool :=
  forallb (λ h, bool_decide (h = Green)) (TryResult a).

(** The helpers of the specification over the loaded words [words]; [zero]
    is the zero value of [LetterHint]. *)
Definition spec_helpers (words : list string) (zero : LetterHint) : Helpers :=
  {| validateWord := validateWord_spec words;
     isWinner := isWinner_spec;
     zeroHint := zero |}.

(** ** The canonical scoring policy of the specification *)

Definition bytes (s : string) : list ascii := list_ascii_of_string s.

(** The number of occurrences of the letter [c] in [s]. *)
Definition occurrences (c : ascii) (s : string) : nat :=
  length (filter (λ b, b = c) (bytes s)).

(** The number of positions of the guess that hold the letter [c] and whose
    hint is Green or Yellow. *)
Definition credited (c : ascii) (guess : string) (hints : list LetterHint)
  : nat :=
  length (filter (λ bh : ascii * LetterHint, bh.1 = c ∧ bh.2 ≠ Grey)
            (zip (bytes guess) hints)).

(** The Green credits of the letter [c]: the positions where the secret and
    the guess both hold [c]. *)
Definition greenCredits (c : ascii) (secret guess : string) : nat :=
  length (filter (λ st : ascii * ascii, st.1 = c ∧ st.2 = c)
            (zip (bytes secret) (bytes guess))).

(** The policy in the words of the specification, from left to right over
    the pairs (secret letter, guess letter) that are left; [given] holds the
    letters and hints of the positions already scored.  A letter that is not
    Green is Yellow while the Yellow credits already given to it are fewer
    than its occurrences in the secret minus its Green credits, and Grey
    otherwise. *)
Fixpoint canonicalFrom (secret guess : string)
    (given : list (ascii * LetterHint)) (rest : list (ascii * ascii))
  : list LetterHint :=
  match rest with
  | [] => []
  | (s, t) :: rest' =>
      let h :=
        if decide (s = t) then Green
        else
          let budget := occurrences t secret - greenCredits t secret guess in
          let yellows := length (filter (λ bh, bh = (t, Yellow)) given) in
          if (yellows <? budget)%nat then Yellow else Grey in
      h :: canonicalFrom secret guess (given ++ [(t, h)]) rest'
  end.

Definition canonicalScore (secret guess : string) : list LetterHint :=
  canonicalFrom secret guess [] (zip (bytes secret) (bytes guess)).

(** ** A concrete reporting instance for the examples *)

(** The double quote, byte 0x22. *)
Definition dq : string :=
  String (Ascii false true false false false true false false) EmptyString.

(** A JSON encoder for maps whose values are already JSON text: the fields
    in increasing key order, as [json.Marshal] writes a map.  No decoder is
    modelled: [json_Unmarshal] fails, which is the degraded path of
    [turnReport]. *)
Definition marshal_fields (m : gmap string string) : string :=
  let fields := merge_sort (λ x y : string * string, String.leb x.1 y.1)
                  (map_to_list m) in
  "{" ++ String.concat ","
           (map (λ kv : string * string, dq ++ kv.1 ++ dq ++ ":" ++ kv.2) fields)
      ++ "}".

Definition text_reporting : Reporting :=
  {| WordleAttempt_Sprint := λ a, TryWord a;
     jvalue := string;
     jstring := λ s, dq ++ s ++ dq;
     jint := λ n, pretty n;
     json_Marshal := λ m, (marshal_fields m, None);
     json_Unmarshal := λ _, (∅, Some (Errorf "invalid character")) |}.

(** The words that the test of the dictionary expects to be valid. *)
Definition test_words : list string :=
  ["blank"; "anime"; "drawn"; "lives"; "nodes"].

(** ** Example games *)

(** The helpers of the specification over the test words. *)
Definition test_helpers : Helpers := spec_helpers test_words Grey.

(** A game created with the secret "blank" in an empty store, at address 1. *)
Definition blank_created
  : (option wordleGame * option error) * option (wordleStore addr) :=
  @Create test_helpers "blank" ("", None) (mkXid "c" "9k2") 1 None.

Definition blank_game : wordleGame := mkGame "c9k2" InPlay "blank" [].

(** The game after the guess "blank", and after six guesses "drawn". *)
Definition blank_won : option (wordleGame * option (wordleStore addr)) :=
  @play_words test_helpers text_reporting 1 ["blank"] blank_game blank_created.2.

Definition blank_lost : option (wordleGame * option (wordleStore addr)) :=
  @play_words test_helpers text_reporting 1
    ["drawn"; "drawn"; "drawn"; "drawn"; "drawn"; "drawn"]
    blank_game blank_created.2.

(** A game value with six attempts whose status is still InPlay. *)
Definition six_in_play : wordleGame :=
  mkGame "c9k2" InPlay "blank"
    (replicate 6 (mkAttempt "drawn" true [Grey; Grey; Green; Grey; Yellow])).

(** The value of [blank_won]: the game is won at the first attempt. *)
Definition won_game : wordleGame :=
  mkGame "c9k2" Won "blank"
    [mkAttempt "blank" true [Green; Green; Green; Green; Green]].

(** The value of [blank_lost]: six attempts, none of them a full match. *)
Definition lost_game : wordleGame :=
  mkGame "c9k2" Lost "blank"
    (replicate 6 (mkAttempt "drawn" true [Grey; Grey; Green; Grey; Yellow])).

(** ** The invariant of the status *)

(** All the hints of an attempt are Green. *)
Definition all_green (a : WordleAttempt) : Prop :=
  Forall (λ h, h = Green) (TryResult a).

(** What holds of every game built with the helpers of the specification:
    the secret has the configured length, an attempt is all Green exactly
    when its word is the secret, and the status agrees with the attempts. *)
Definition status_invariant (g : wordleGame) : Prop :=
  String.length (SecretWord g) = CONFIG_GAME_WORDLENGTH ∧
  Forall (λ a, all_green a ↔ TryWord a = SecretWord g) (Attempts g) ∧
  (Status g = InPlay → Forall (λ a, ¬ all_green a) (Attempts g)) ∧
  (Status g = Won → ∃ a, last (Attempts g) = Some a ∧ all_green a) ∧
  (Status g = Lost →
     length (Attempts g) = 6 ∧ Forall (λ a, ¬ all_green a) (Attempts g)).

(** * Properties of the store *)

Section StoreFacts.
Context {V : Type}.
Implicit Types (s : wordleStore V) (id : string) (v : content V).

Lemma validateId_empty id : validateId id = Some ErrInvalidId ↔ id = "".
Proof.
  unfold validateId. destruct id as [|b id]; simpl; [done|].
  split; intros ?; discriminate.
Qed.

Lemma validateId_nonempty id : id ≠ "" → validateId id = None.
Proof. destruct id; [done|]. intros _. reflexivity. Qed.

Lemma validateId_cases id :
  (id = "" ∧ validateId id = Some ErrInvalidId) ∨
  (id ≠ "" ∧ validateId id = None).
Proof. destruct id; [left|right]; done. Qed.

Lemma Save_nonempty s id v :
  id ≠ "" → Save s id v = (None, mkStore (<[id := v]> (games s))).
Proof. intros Hid. unfold Save. by rewrite validateId_nonempty. Qed.

Lemma Save_empty s v : Save s "" v = (Some ErrInvalidId, s).
Proof. reflexivity. Qed.

Lemma Load_after_Save s id v :
  id ≠ "" → Load (mkStore (<[id := v]> (games s))) id = (v, None).
Proof.
  intros Hid. unfold Load. rewrite validateId_nonempty by done.
  simpl. by rewrite lookup_insert_eq.
Qed.

Lemma Delete_absent s id :
  games s !! id = None → Delete s id = (Some ErrInvalidId, s).
Proof.
  intros Hno. unfold Delete.
  destruct (validateId_cases id) as [[_ ->]|[_ ->]]; [done|].
  by rewrite Hno.
Qed.

Lemma PurgeAll_empty s : (PurgeAll s).2 = mkStore ∅.
Proof.
  unfold PurgeAll. simpl. f_equal. apply map_eq. intros k.
  rewrite lookup_empty.
  assert (Hin : ∀ ks (m : gmap string (content V)),
            k ∈ ks → (foldr delete m ks) !! k = None).
  { induction ks as [|k' ks IH]; intros m Hk; simpl.
    - by apply elem_of_nil in Hk.
    - destruct (decide (k' = k)) as [->|Hne].
      + apply lookup_delete_eq.
      + rewrite lookup_delete_ne by done. apply IH.
        apply elem_of_cons in Hk as [?|?]; [congruence|done]. }
  destruct (games s !! k) as [c|] eqn:Hl.
  - apply Hin. apply list_elem_of_fmap. exists (k, c).
    split; [done|]. by apply elem_of_map_to_list.
  - assert (Hsub : ∀ ks (m : gmap string (content V)),
              m !! k = None → (foldr delete m ks) !! k = None).
    { induction ks as [|k' ks IH]; intros m Hm; simpl; [done|].
      rewrite lookup_delete. case_decide; [done|]. by apply IH. }
    by apply Hsub.
Qed.
End StoreFacts.

(** C6 (as stated): [Delete] of an identifier without entry does not fail
    with NotFound.  In a store that holds the single entry "g1", deleting the
    non-empty identifier "g2" returns [ErrInvalidId]. *)
Lemma Delete_unknown_is_not_NotFound :
  let s : wordleStore nat := (Save (mkStore ∅) "g1" (Some 7)).2 in
  games s !! "g2" = None ∧
  (Delete s "g2").1 = Some ErrInvalidId ∧
  (Delete s "g2").1 ≠ Some ErrNotFound.
Proof.
  cbv zeta. split; [vm_compute; reflexivity|].
  split; [vm_compute; reflexivity|vm_compute; discriminate].
Qed.

(** C6 (amended): for every store and every identifier that has no entry in
    it, [Delete] fails with the InvalidId error, the error of the empty
    identifier, and leaves the store unchanged; [Delete] with the empty
    identifier fails with InvalidId. *)
Theorem Delete_unknown_InvalidId {V : Type} (s : wordleStore V) (id : string) :
  games s !! id = None →
  Delete s id = (Some ErrInvalidId, s) ∧ Delete s "" = (Some ErrInvalidId, s).
Proof. intros Hno. split; [by apply Delete_absent|reflexivity]. Qed.

(** The deletion of an unknown id on a store that holds one entry. *)
Lemma Delete_unknown_InvalidId_witness :
  let s : wordleStore nat := mkStore (<["g1" := Some 7]> ∅) in
  games s !! "g2" = None ∧
  Delete s "g2" = (Some ErrInvalidId, s) ∧ Delete s "" = (Some ErrInvalidId, s).
Proof.
  simpl. split; [vm_compute; reflexivity|].
  apply (Delete_unknown_InvalidId (mkStore (<["g1" := Some 7]> ∅)) "g2").
  vm_compute; reflexivity.
Defined.

(** C9 (as stated): [Delete] does not fail with InvalidId exactly when the
    identifier is empty: on the empty store it fails with InvalidId for the
    non-empty identifier "g1". *)
Lemma Delete_InvalidId_for_nonempty_id :
  ¬ (∀ (s : wordleStore nat) (id : string),
       (Delete s id).1 = Some ErrInvalidId ↔ id = "").
Proof.
  intros Hall. destruct (Hall (mkStore ∅) "g1") as [Himp _].
  discriminate Himp. vm_compute; reflexivity.
Qed.

(** C9 (amended): the store round-trips: for every non-empty id and value
    [v], [Save] succeeds and a following [Load] returns [v] with no error;
    for every non-empty id with no entry, [Load] returns the nil value with
    no error; [Save], [Load] and [Exists] fail with InvalidId exactly when
    the id is empty, and [Delete] fails with InvalidId exactly when the id is
    empty or has no entry. *)
Theorem store_round_trip {V : Type} (s : wordleStore V) (id : string)
    (v : content V) :
  (id ≠ "" →
     (Save s id v).1 = None ∧ Load (Save s id v).2 id = (v, None)) ∧
  (id ≠ "" → games s !! id = None → Load s id = (None, None)) ∧
  ((Save s id v).1 = Some ErrInvalidId ↔ id = "") ∧
  ((Load s id).2 = Some ErrInvalidId ↔ id = "") ∧
  ((Exists s id).2 = Some ErrInvalidId ↔ id = "") ∧
  ((Delete s id).1 = Some ErrInvalidId ↔ id = "" ∨ games s !! id = None).
Proof.
  split_and!.
  - intros Hid. rewrite Save_nonempty by done. simpl.
    split; [done|]. by apply Load_after_Save.
  - intros Hid Hno. unfold Load. rewrite validateId_nonempty by done.
    by rewrite Hno.
  - unfold Save.
    destruct (validateId_cases id) as [[-> ->]|[Hid ->]]; simpl; [done|].
    split; [discriminate|done].
  - unfold Load.
    destruct (validateId_cases id) as [[-> ->]|[Hid ->]]; simpl; [done|].
    destruct (games s !! id); simpl; (split; [discriminate|done]).
  - unfold Exists.
    destruct (validateId_cases id) as [[-> ->]|[Hid ->]]; simpl; [done|].
    destruct (games s !! id); simpl; (split; [discriminate|done]).
  - unfold Delete.
    destruct (validateId_cases id) as [[-> ->]|[Hid ->]]; simpl.
    + split; [by left|done].
    + destruct (games s !! id) as [c|]; simpl.
      * split; [discriminate|]. intros [?|?]; done.
      * split; [by right|done].
Qed.

(** The round trip on the empty store and the id "g1". *)
Lemma store_round_trip_witness :
  let s : wordleStore nat := mkStore ∅ in
  "g1" ≠ "" ∧ games s !! "g1" = None ∧
  (Save s "g1" (Some 7)).1 = None ∧
  Load (Save s "g1" (Some 7)).2 "g1" = (Some 7, None) ∧
  Load s "g1" = (None, None).
Proof.
  simpl.
  pose proof (store_round_trip (mkStore (V:=nat) ∅) "g1" (Some 7))
    as (Hsave & Hload & _).
  assert (Hid : "g1" ≠ "") by discriminate.
  assert (Hno : games (mkStore (V:=nat) ∅) !! "g1" = None) by reflexivity.
  split; [exact Hid|]. split; [exact Hno|].
  destruct (Hsave Hid) as [H1 H2].
  split; [exact H1|]. split; [exact H2|exact (Hload Hid Hno)].
Defined.

(** * Properties of the scoring *)

Section ScoringFacts.
Implicit Types (secret tryWord : string) (score : list LetterHint).

Lemma index_lt (s : string) (i : nat) :
  i < String.length s → is_Some (index s i).
Proof.
  unfold index. revert i. induction s as [|b s IH]; intros i Hi; simpl in *.
  - lia.
  - destruct i as [|i]; [by eexists|]. apply IH. lia.
Qed.

Lemma slice_in_range (s : string) (i j : nat) :
  i ≤ j → j ≤ String.length s → is_Some (slice s i j).
Proof.
  intros Hij Hj. unfold slice.
  destruct (Nat.leb_spec i j); [|lia].
  destruct (Nat.leb_spec j (String.length s)); [|lia].
  by eexists.
Qed.

Lemma creditLeft_total secret tryWord i c :
  i ≤ String.length secret → i ≤ String.length tryWord →
  is_Some (creditLeft secret tryWord i c).
Proof.
  intros Hs Ht. unfold creditLeft.
  destruct (slice_in_range secret 0 i) as [sl ->]; [lia|done|].
  destruct (slice_in_range tryWord 0 i) as [tl ->]; [lia|done|].
  simpl. by destruct (0 <? _)%nat.
Qed.

Lemma creditRight_total secret tryWord i c :
  i ≤ CONFIG_GAME_WORDLENGTH - 1 →
  CONFIG_GAME_WORDLENGTH - 1 ≤ String.length secret →
  CONFIG_GAME_WORDLENGTH - 1 ≤ String.length tryWord →
  is_Some (creditRight secret tryWord i c).
Proof.
  intros Hi Hs Ht. unfold creditRight.
  destruct (slice_in_range secret i (CONFIG_GAME_WORDLENGTH - 1))
    as [sr ->]; [done..|].
  destruct (slice_in_range tryWord i (CONFIG_GAME_WORDLENGTH - 1))
    as [tr ->]; [done..|].
  simpl. by destruct (0 <? _)%nat.
Qed.

(** On words of the configured length the body of the loop does not panic,
    and it writes Green exactly where the two bytes agree. *)
Lemma hintAt_total secret tryWord i :
  String.length secret = CONFIG_GAME_WORDLENGTH →
  String.length tryWord = CONFIG_GAME_WORDLENGTH →
  i < CONFIG_GAME_WORDLENGTH →
  ∃ h, hintAt secret tryWord i = Some h ∧
       (h = Green ↔ index secret i = index tryWord i).
Proof.
  intros Hs Ht Hi. unfold hintAt.
  destruct (index_lt secret i) as [si Hsi]; [lia|].
  destruct (index_lt tryWord i) as [ti Hti]; [lia|].
  rewrite Hsi, Hti. simpl.
  destruct (decide (si = ti)) as [->|Hne].
  { by eexists. }
  assert (Hneq : Some si ≠ Some ti) by congruence.
  destruct (0 <? strings_Count secret (string_of_byte ti))%nat;
    [|eexists; split; [done|]; split; [discriminate|done]].
  destruct (creditLeft_total secret tryWord i (string_of_byte ti))
    as [l ->]; [lia..|]. simpl.
  destruct l; [eexists; split; [done|]; split; [discriminate|done]|].
  destruct (creditRight_total secret tryWord i (string_of_byte ti))
    as [r ->]; [unfold CONFIG_GAME_WORDLENGTH in *; lia..|]. simpl.
  destruct r; eexists; (split; [done|]); (split; [discriminate|done]).
Qed.

(** The loop writes the hint of every index from [i] on and leaves the
    others. *)
Lemma scoreLoop_spec secret tryWord n i score :
  String.length secret = CONFIG_GAME_WORDLENGTH →
  String.length tryWord = CONFIG_GAME_WORDLENGTH →
  length score = CONFIG_GAME_WORDLENGTH →
  i + n = CONFIG_GAME_WORDLENGTH →
  ∃ score', scoreLoop secret tryWord n i score = Some score' ∧
    length score' = CONFIG_GAME_WORDLENGTH ∧
    (∀ j, j < i → score' !! j = score !! j) ∧
    (∀ j, i ≤ j < CONFIG_GAME_WORDLENGTH →
          score' !! j = hintAt secret tryWord j).
Proof.
  intros Hs Ht. revert i score.
  induction n as [|n IH]; intros i score Hlen Hin; simpl.
  - exists score. split_and!; [done|done|done|]. intros j ?. lia.
  - destruct (hintAt_total secret tryWord i) as (h & Hh & _); [done|done|lia|].
    rewrite Hh. simpl. unfold store_hint.
    destruct (Nat.ltb_spec i (length score)); [|lia]. simpl.
    destruct (IH (S i) (<[i := h]> score)) as (score' & Hloop & Hl & Hlow & Hhigh).
    { by rewrite length_insert. }
    { lia. }
    exists score'. split_and!; [done|done| |].
    + intros j Hj. rewrite Hlow by lia. apply list_lookup_insert_ne. lia.
    + intros j Hj. destruct (decide (j = i)) as [->|Hne].
      * rewrite Hlow by lia. rewrite list_lookup_insert_eq by lia. done.
      * apply Hhigh. lia.
Qed.

(** Two strings of the same length with the same bytes are equal. *)
Lemma string_ext (s t : string) :
  String.length s = String.length t →
  (∀ j, j < String.length s → index s j = index t j) → s = t.
Proof.
  revert t. induction s as [|b s IH]; intros [|c t] Hlen Hget;
    simpl in *; try lia; [done|].
  pose proof (Hget 0 ltac:(lia)) as H0. simpl in H0.
  injection H0 as ->. f_equal. apply IH; [lia|].
  intros j Hj. apply (Hget (S j)). lia.
Qed.

(** On words of the configured length [scoreWord] returns hints, one per
    position, without panic or error; they are all Green exactly when the
    guess is the secret. *)
Lemma scoreWord_total (g : wordleGame) tryWord score :
  String.length (SecretWord g) = CONFIG_GAME_WORDLENGTH →
  String.length tryWord = CONFIG_GAME_WORDLENGTH →
  length score = CONFIG_GAME_WORDLENGTH →
  ∃ hints, scoreWord g tryWord (Some score) = Some (hints, None) ∧
    length hints = CONFIG_GAME_WORDLENGTH ∧
    (∀ j, j < CONFIG_GAME_WORDLENGTH →
          hints !! j = hintAt (SecretWord g) tryWord j) ∧
    (Forall (λ h, h = Green) hints ↔ tryWord = SecretWord g).
Proof.
  intros Hs Ht Hlen. unfold scoreWord.
  destruct (scoreLoop_spec (SecretWord g) tryWord CONFIG_GAME_WORDLENGTH 0 score)
    as (hints & -> & Hl & _ & Hhigh); [done..|].
  exists hints. simpl. split_and!; [done|done|intros j Hj; apply Hhigh; lia|].
  rewrite Forall_lookup. split.
  - intros Hall. symmetry. apply string_ext; [congruence|].
    intros j Hj. rewrite Hs in Hj.
    destruct (hintAt_total (SecretWord g) tryWord j) as (h & Hh & Hgreen);
      [done..|].
    apply Hgreen. apply (Hall j). rewrite Hhigh by lia. done.
  - intros Heq j h Hj.
    assert (j < CONFIG_GAME_WORDLENGTH) as Hlt.
    { rewrite <- Hl. by eapply lookup_lt_Some. }
    destruct (hintAt_total (SecretWord g) tryWord j) as (h' & Hh & Hgreen);
      [done..|].
    rewrite Hhigh in Hj by lia. rewrite Hh in Hj. injection Hj as <-.
    apply Hgreen. by rewrite Heq.
Qed.

(** A letter that the secret does not hold is never credited: its hint is
    Grey unless the position is an exact match. *)
Lemma hintAt_absent secret tryWord i b h :
  index tryWord i = Some b →
  strings_Count secret (string_of_byte b) = 0 →
  hintAt secret tryWord i = Some h → h = Green ∨ h = Grey.
Proof.
  intros Hb Hc. unfold hintAt. rewrite Hb.
  destruct (index secret i) as [si|]; simpl; [|done].
  destruct (decide (si = b)); [intros [= <-]; by left|].
  rewrite Hc. simpl. intros [= <-]. by right.
Qed.
End ScoringFacts.

(** C1: the scoring credits a letter more often than the secret holds it.
    For the secret "lives" and the guess "three", [scoreWord] returns the
    hints Grey, Grey, Grey, Green, Yellow: the letter e is credited at two
    positions of the guess (Green at index 3, Yellow at index 4) and occurs
    once in the secret. *)
Theorem scoreWord_credits_letter_twice (zero : LetterHint) :
  let g := mkGame "c9k2" InPlay "lives" [] in
  scoreWord g "three" (Some (replicate CONFIG_GAME_WORDLENGTH zero))
    = Some ([Grey; Grey; Grey; Green; Yellow], None) ∧
  credited "e" "three" [Grey; Grey; Grey; Green; Yellow] = 2 ∧
  occurrences "e" "lives" = 1.
Proof. split_and!; vm_compute; reflexivity. Qed.

(** C2: the scoring is not the canonical two-phase policy.  For the secret
    "anime" and the guess "lives" the canonical policy credits the letter e
    Yellow at index 3 (the secret holds it at its last position) and
    [scoreWord] writes Grey there; for the secret "lives" and the guess
    "three" the canonical policy leaves the second e Grey (the only e of the
    secret is consumed by the Green at index 3) and [scoreWord] writes Yellow
    there. *)
Theorem scoreWord_differs_from_canonical (zero : LetterHint) :
  scoreWord (mkGame "c9k2" InPlay "anime" []) "lives"
      (Some (replicate CONFIG_GAME_WORDLENGTH zero))
    = Some ([Grey; Yellow; Grey; Grey; Grey], None) ∧
  canonicalScore "anime" "lives" = [Grey; Yellow; Grey; Yellow; Grey] ∧
  scoreWord (mkGame "c9k2" InPlay "lives" []) "three"
      (Some (replicate CONFIG_GAME_WORDLENGTH zero))
    = Some ([Grey; Grey; Grey; Green; Yellow], None) ∧
  canonicalScore "lives" "three" = [Grey; Grey; Grey; Green; Grey].
Proof. split_and!; vm_compute; reflexivity. Qed.

(** * Properties of the engine, for any helpers *)

Section EngineFacts.
Context {hp : Helpers} {rp : Reporting}.
Implicit Types (g : wordleGame) (single : option (wordleStore addr)).

Lemma write_new_attempt g wa a :
  write_attempt (length (Attempts g)) a (set_Attempts (Attempts g ++ [wa]) g)
  = set_Attempts (Attempts g ++ [a]) g.
Proof.
  unfold write_attempt, set_Attempts. simpl. f_equal.
  rewrite insert_app_r_alt by lia. by rewrite Nat.sub_diag.
Qed.

(** The store after [Save] of the game: the error and the singleton. *)
Lemma WordleStore_Save single id self :
  ∃ gs, getWordleStore single = (gs, Some gs) ∧
        ((id = "" ∧ Save gs id (Some self) = (Some ErrInvalidId, gs)) ∨
         (id ≠ "" ∧ Save gs id (Some self)
                    = (None, mkStore (<[id := Some self]> (games gs))))).
Proof.
  destruct single as [gs|]; simpl; eexists; (split; [reflexivity|]);
    (destruct (validateId_cases id) as [[-> _]|[Hid _]];
     [left; done|right; split; [done|by apply Save_nonempty]]).
Qed.

(** [Play] on a finished game. *)
Lemma Play_finished self tryWord g single :
  Status g ≠ InPlay →
  Play self tryWord g single
  = Some ((statusReport g, Some (Errorf "game is finished")), g, single).
Proof. intros Hst. unfold Play. by rewrite decide_True. Qed.

(** [Play] on a game in play that holds six attempts or more. *)
Lemma Play_out_of_turns self tryWord g single :
  Status g = InPlay → 6 ≤ length (Attempts g) →
  Play self tryWord g single
  = Some ((statusReport (set_Status Lost g), Some (Errorf "out of turns")),
          set_Status Lost g, single).
Proof.
  intros Hst Hlen. unfold Play.
  rewrite decide_False by (intros Hne; by apply Hne).
  destruct (Nat.leb_spec 6 (length (Attempts g))); [done|lia].
Qed.

(** [Play] with a word that [validateWord] rejects. *)
Lemma Play_rejected self tryWord g single tw err :
  Status g = InPlay → length (Attempts g) < 6 →
  validateWord tryWord (SecretWord g) = (tw, Some err) →
  Play self tryWord g single = Some (("{}", Some err), g, single).
Proof.
  intros Hst Hlen Hv. unfold Play.
  rewrite decide_False by (intros Hne; by apply Hne).
  destruct (Nat.leb_spec 6 (length (Attempts g))); [lia|].
  by rewrite Hv.
Qed.

(** [Play] with a word that [validateWord] accepts: the call panics when
    the scoring does, and otherwise records the attempt and saves. *)
Lemma Play_accepted self tryWord g single tw :
  Status g = InPlay → length (Attempts g) < 6 →
  validateWord tryWord (SecretWord g) = (tw, None) →
  Play self tryWord g single
  = match scoreLoop (SecretWord g) tw CONFIG_GAME_WORDLENGTH 0
            (replicate CONFIG_GAME_WORDLENGTH zeroHint) with
    | None => None
    | Some hints =>
        let g' := recorded g tw hints in
        let saved := Save (getWordleStore single).1 (Id g) (Some self) in
        Some ((turnReport g' (mkAttempt tw true hints), saved.1), g',
              Some saved.2)
    end.
Proof.
  intros Hst Hlen Hv. unfold Play.
  rewrite decide_False by (intros Hne; by apply Hne).
  destruct (Nat.leb_spec 6 (length (Attempts g))); [lia|].
  rewrite Hv. unfold addAttempt. cbn [TryResult TryWord IsValidWord].
  rewrite !write_new_attempt. unfold scoreWord.
  cbn [SecretWord set_Attempts].
  destruct (scoreLoop _ _ _ _ _) as [hints|]; [|done].
  cbn [mbind option_bind]. rewrite write_new_attempt.
  unfold recorded, WordleStore.
  destruct (getWordleStore single) as [gs single1] eqn:Hgs.
  cbn [fst snd].
  assert (Hid : ∀ g0 : wordleGame,
    Id (if isWinner (mkAttempt tw true hints) then set_Status Won g0
        else if 6 <=? length (Attempts g0) then set_Status Lost g0 else g0)
    = Id g0).
  { intros g0. destruct (isWinner _); [done|]. by destruct (_ <=? _). }
  rewrite Hid. cbn [Id set_Attempts].
  by destruct (Save gs (Id g) (Some self)) as [[err|] gs'].
Qed.

(** Every returning call of [Play] is one of four cases. *)
Lemma Play_cases self tryWord g single r g' single' :
  Play self tryWord g single = Some (r, g', single') →
  (Status g ≠ InPlay ∧ g' = g ∧ single' = single ∧
     r = (statusReport g, Some (Errorf "game is finished"))) ∨
  (Status g = InPlay ∧ 6 ≤ length (Attempts g) ∧
     g' = set_Status Lost g ∧ single' = single ∧
     r = (statusReport g', Some (Errorf "out of turns"))) ∨
  (Status g = InPlay ∧ length (Attempts g) < 6 ∧ g' = g ∧
     single' = single ∧
     ∃ tw err, validateWord tryWord (SecretWord g) = (tw, Some err) ∧
               r = ("{}", Some err)) ∨
  (Status g = InPlay ∧ length (Attempts g) < 6 ∧
     ∃ tw hints, validateWord tryWord (SecretWord g) = (tw, None) ∧
       scoreLoop (SecretWord g) tw CONFIG_GAME_WORDLENGTH 0
         (replicate CONFIG_GAME_WORDLENGTH zeroHint) = Some hints ∧
       g' = recorded g tw hints ∧
       r.1 = turnReport g' (mkAttempt tw true hints)).
Proof.
  intros HP.
  destruct (decide (Status g = InPlay)) as [Hst|Hst]; cycle 1.
  { rewrite Play_finished in HP by done. injection HP as <- <- <-.
    left. done. }
  destruct (Nat.le_gt_cases 6 (length (Attempts g))) as [Hlen|Hlen].
  { rewrite Play_out_of_turns in HP by done. injection HP as <- <- <-.
    right; left. done. }
  destruct (validateWord tryWord (SecretWord g)) as [tw [err|]] eqn:Hv.
  { erewrite Play_rejected in HP by done. injection HP as <- <- <-.
    right; right; left. split_and!; [done..|]. by exists tw, err. }
  rewrite (Play_accepted _ _ _ _ tw) in HP by done.
  destruct (scoreLoop _ _ _ _ _) as [hints|] eqn:Hloop; [|done].
  cbn zeta in HP. injection HP as <- <- <-.
  right; right; right. split_and!; [done..|]. by exists tw, hints.
Qed.

(** [Resign] sets the status and keeps the rest of the game. *)
Lemma Resign_game self g single :
  (Resign self g single).1.2 = set_Status Resigned g.
Proof.
  unfold Resign, WordleStore.
  destruct (getWordleStore single) as [gs single1]. cbn [fst snd].
  by destruct (Save gs _ _) as [[err|] gs'].
Qed.

(** [Resign] on a game whose id is not empty returns the status report of
    the resigned game and no error. *)
Lemma Resign_nonempty_id self g single :
  Id g ≠ "" →
  ∃ single', Resign self g single
             = ((statusReport (set_Status Resigned g), None),
                set_Status Resigned g, single').
Proof.
  intros Hid. unfold Resign, WordleStore.
  destruct (WordleStore_Save single (Id g) self) as (gs & -> & [[? _]|[_ HS]]);
    [done|].
  cbn [Id set_Status]. rewrite HS. by eexists.
Qed.

Lemma recorded_Id g tw hints : Id (recorded g tw hints) = Id g.
Proof.
  unfold recorded. destruct (isWinner _); [done|]. by destruct (_ <=? _).
Qed.

Lemma recorded_SecretWord g tw hints :
  SecretWord (recorded g tw hints) = SecretWord g.
Proof.
  unfold recorded. destruct (isWinner _); [done|]. by destruct (_ <=? _).
Qed.

Lemma recorded_Attempts g tw hints :
  Attempts (recorded g tw hints)
  = (Attempts g ++ [mkAttempt tw true hints])%list.
Proof.
  unfold recorded. destruct (isWinner _); [done|]. by destruct (_ <=? _).
Qed.

Lemma recorded_Status g tw hints :
  Status (recorded g tw hints)
  = if isWinner (mkAttempt tw true hints) then Won
    else if 6 <=? S (length (Attempts g)) then Lost else Status g.
Proof.
  unfold recorded. destruct (isWinner _); [done|].
  cbn [Attempts set_Attempts]. rewrite length_app. cbn [length].
  rewrite Nat.add_1_r. by destruct (6 <=? S (length (Attempts g))).
Qed.

(** A step keeps the id. *)
Lemma step_Id g g' : step g g' → Id g' = Id g.
Proof.
  intros [g0 self w single r g1 single' HP|g0 self single r g1 single' HR].
  - apply Play_cases in HP
      as [(_ & -> & _)|[(_ & _ & -> & _)|[(_ & _ & -> & _)|
          (_ & _ & tw & hints & _ & _ & -> & _)]]]; try done.
    apply recorded_Id.
  - pose proof (Resign_game self g0 single) as HG. rewrite HR in HG.
    simpl in HG. by subst.
Qed.

Lemma Create_cases secretWord generated x self single g err single' :
  Create secretWord generated x self single = ((Some g, err), single') →
  ∃ word sw, validateWord word word = (sw, None) ∧
             g = mkGame (xid_String x) InPlay sw [].
Proof.
  unfold Create.
  destruct (if String.length secretWord <? 1 then generated
            else (secretWord, None)) as [word [gerr|]]; [done|].
  destruct (validateWord word word) as [sw [verr|]] eqn:Hv; [done|].
  unfold WordleStore. destruct (getWordleStore single) as [gs single1].
  intros HC. exists word, sw. split; [done|].
  destruct (Save gs _ _) as [[serr|] gs']; by injection HC as <- _ _.
Qed.

Lemma step_well_formed g g' : well_formed g → step g g' → well_formed g'.
Proof.
  intros (Hid & Hlen & Hplay) Hstep.
  pose proof (step_Id _ _ Hstep) as HId.
  unfold well_formed. rewrite HId. split; [done|].
  destruct Hstep as [g self w single r g' single' HP|g self single r g' single' HR].
  - apply Play_cases in HP
      as [(_ & -> & _)|[(_ & _ & -> & _)|[(_ & _ & -> & _)|
          (Hst & Hlt & tw & hints & _ & _ & -> & _)]]]; try done.
    rewrite recorded_Attempts, recorded_Status, length_app. cbn [length].
    split; [lia|]. destruct (isWinner _); [done|].
    destruct (Nat.leb_spec 6 (S (length (Attempts g)))); [done|lia].
  - pose proof (Resign_game self g single) as HG. rewrite HR in HG.
    simpl in HG. subst g'. simpl. split; [done|discriminate].
Qed.

Lemma reachable_well_formed g : reachable g → well_formed g.
Proof.
  induction 1 as [sw gen x self single g err single' HC|g g' _ IH Hstep].
  - apply Create_cases in HC as (word & sw' & _ & ->).
    split_and!; simpl; [done|lia|lia].
  - by eapply step_well_formed.
Qed.
End EngineFacts.

Section EngineClaims.
Context {hp : Helpers} {rp : Reporting}.
Implicit Types (g : wordleGame) (single : option (wordleStore addr)).

Lemma rtc_step_reachable g g' : reachable g → rtc step g g' → reachable g'.
Proof.
  intros Hr Hsteps. induction Hsteps as [|g g1 g2 Hstep _ IH]; [done|].
  apply IH. by eapply reachable_step.
Qed.

Lemma play_words_steps self ws g single g' single' :
  play_words self ws g single = Some (g', single') → rtc step g g'.
Proof.
  revert g single. induction ws as [|w ws IH]; intros g single; simpl.
  - intros [= <- _]. apply rtc_refl.
  - destruct (Play self w g single) as [[[r g1] s1]|] eqn:HP; [|done].
    simpl. intros Hrest. eapply rtc_l; [|by eapply IH].
    by eapply step_Play.
Qed.

Lemma step_terminal g g' :
  Status g ≠ InPlay → step g g' →
  Status g' = Status g ∨ Status g' = Resigned.
Proof.
  intros Hst Hstep.
  destruct Hstep as [g self w single r g' single' HP|g self single r g' single' HR].
  - rewrite Play_finished in HP by done. injection HP as _ <- _. by left.
  - pose proof (Resign_game self g single) as HG. rewrite HR in HG.
    simpl in HG. subst g'. by right.
Qed.

(** C7: for every game whose status is not InPlay, [Play] returns the
    error "game is finished" (with the status report) and leaves the game
    and the store as they were: no attempt is appended, and the status, the
    secret word and the id keep their values. *)
Theorem Play_on_finished_game self tryWord g single :
  Status g ≠ InPlay →
  ∃ g', Play self tryWord g single
        = Some ((statusReport g, Some (Errorf "game is finished")), g', single)
     ∧ g' = g ∧ Attempts g' = Attempts g ∧ Status g' = Status g
     ∧ SecretWord g' = SecretWord g ∧ Id g' = Id g.
Proof.
  intros Hst. exists g. rewrite Play_finished by done. done.
Qed.

(** C4 (amended): once the status of a game is Won, Lost or Resigned,
    [Play] never changes it and [Resign] sets it to Resigned (also from Won
    and from Lost); after any sequence of calls of [Play] and [Resign] the
    status is the one it was or Resigned, so it is never InPlay again. *)
Theorem terminal_status_after_calls g :
  Status g ≠ InPlay →
  (∀ self tryWord single r g' single',
     Play self tryWord g single = Some (r, g', single') →
     Status g' = Status g) ∧
  (∀ self single, Status (Resign self g single).1.2 = Resigned) ∧
  (∀ g', rtc step g g' →
     (Status g' = Status g ∨ Status g' = Resigned) ∧ Status g' ≠ InPlay).
Proof.
  intros Hst. split_and!.
  - intros self w single r g' single' HP.
    rewrite Play_finished in HP by done. by injection HP as _ <- _.
  - intros self single. by rewrite Resign_game.
  - intros g' Hsteps. induction Hsteps as [g|g g1 g2 Hstep _ IH].
    + split; [by left|done].
    + destruct (step_terminal _ _ Hst Hstep) as [Heq|Heq].
      * rewrite <- Heq. apply IH. by rewrite Heq.
      * assert (Status g1 ≠ InPlay) as H1 by (by rewrite Heq).
        destruct (IH H1) as [[H2|H2] H3]; (split; [|done]); right; congruence.
Qed.

(** C5 (amended): for every game that holds six attempts or more while
    its status is InPlay, [Play] fails with "out of turns", sets the status
    to Lost and appends no attempt.  No game built by [Create], [Play] and
    [Resign] is in that state: with six recorded attempts the status is no
    longer InPlay, so a seventh call of [Play] fails with "game is
    finished" and leaves the game unchanged. *)
Theorem Play_after_six_attempts self tryWord g single :
  6 ≤ length (Attempts g) →
  (Status g = InPlay →
     Play self tryWord g single
     = Some ((statusReport (set_Status Lost g), Some (Errorf "out of turns")),
             set_Status Lost g, single)
     ∧ Attempts (set_Status Lost g) = Attempts g) ∧
  (reachable g →
     Status g ≠ InPlay ∧
     Play self tryWord g single
     = Some ((statusReport g, Some (Errorf "game is finished")), g, single)).
Proof.
  intros Hlen. split.
  - intros Hst. split; [by apply Play_out_of_turns|done].
  - intros Hr. destruct (reachable_well_formed g Hr) as (_ & _ & Hplay).
    assert (Status g ≠ InPlay) as Hst.
    { intros Hst. specialize (Hplay Hst). lia. }
    split; [done|]. by apply Play_finished.
Qed.

(** C8: for every game that the engine builds, [Resign] sets the status to
    Resigned and returns the status report with no error, and a second
    [Resign] does the same and leaves the game as the first one left it. *)
Theorem Resign_idempotent self g single :
  reachable g →
  let '(r1, g1, single1) := Resign self g single in
  let '(r2, g2, single2) := Resign self g1 single1 in
  r1 = (statusReport g1, None) ∧ Status g1 = Resigned ∧
  r2 = (statusReport g2, None) ∧ Status g2 = Resigned ∧ g2 = g1.
Proof.
  intros Hr. destruct (reachable_well_formed g Hr) as (Hid & _).
  destruct (Resign_nonempty_id self g single Hid) as [single1 ->].
  destruct (Resign_nonempty_id self (set_Status Resigned g) single1 Hid)
    as [single2 ->].
  done.
Qed.

(** C10: when [Play] rejects the guess as invalid, the report is the
    literal empty object and the error is the one of the validation, and the
    game and the store are unchanged; every other returning call of [Play]
    returns the status report of the game or the turn report of the attempt
    it has just recorded. *)
Theorem Play_rejected_report self tryWord g single :
  (∀ tw err,
     Status g = InPlay → length (Attempts g) < 6 →
     validateWord tryWord (SecretWord g) = (tw, Some err) →
     Play self tryWord g single = Some (("{}", Some err), g, single)) ∧
  (∀ r e g' single',
     Play self tryWord g single = Some ((r, e), g', single') →
     r = statusReport g' ∨
     (∃ a, last (Attempts g') = Some a ∧ r = turnReport g' a) ∨
     (r = "{}" ∧ g' = g ∧
      ∃ tw err, validateWord tryWord (SecretWord g) = (tw, Some err)
                ∧ e = Some err)).
Proof.
  split.
  - intros tw err Hst Hlen Hv. by eapply Play_rejected.
  - intros r e g' single' HP.
    apply Play_cases in HP
      as [(_ & -> & _ & Hr)|[(_ & _ & -> & _ & Hr)|[(_ & _ & -> & _ & Hr)|
          (_ & _ & tw & hints & _ & _ & -> & Hr)]]].
    + injection Hr as -> _. by left.
    + injection Hr as -> _. by left.
    + destruct Hr as (tw & err & Hv & [= -> ->]).
      right; right. split_and!; [done..|]. by exists tw, err.
    + right; left. exists (mkAttempt tw true hints). simpl in Hr.
      split; [|done]. rewrite recorded_Attempts. apply last_snoc.
Qed.
End EngineClaims.

(** * Properties of the engine with the helpers of the specification *)

Section SpecEngine.
Context (words : list string) (zero : LetterHint) {rp : Reporting}.
Implicit Types (g : wordleGame) (single : option (wordleStore addr)).

Local Abbreviation spec := (spec_helpers words zero).

Lemma ToLower_length (s : string) :
  String.length (ToLower s) = String.length s.
Proof. induction s as [|b s IH]; simpl; [done|]. by rewrite IH. Qed.

Lemma validateWord_spec_length word secret tw :
  validateWord_spec words word secret = (tw, None) →
  String.length tw = CONFIG_GAME_WORDLENGTH.
Proof.
  unfold validateWord_spec.
  destruct (Nat.eqb_spec (String.length word) CONFIG_GAME_WORDLENGTH)
    as [Hlen|]; simpl; [|done].
  destruct (IsWordValid words word); [|done].
  intros [= <-]. by rewrite ToLower_length.
Qed.

Lemma isWinner_spec_all_green (a : WordleAttempt) :
  isWinner_spec a = true ↔ all_green a.
Proof.
  unfold isWinner_spec, all_green.
  induction (TryResult a) as [|h hints IH]; simpl.
  - split; [constructor|done].
  - rewrite andb_true_iff, bool_decide_eq_true, IH, Forall_cons. done.
Qed.

Lemma scoreLoop_all_green g tw hints :
  String.length (SecretWord g) = CONFIG_GAME_WORDLENGTH →
  String.length tw = CONFIG_GAME_WORDLENGTH →
  scoreLoop (SecretWord g) tw CONFIG_GAME_WORDLENGTH 0
    (replicate CONFIG_GAME_WORDLENGTH zero) = Some hints →
  all_green (mkAttempt tw true hints) ↔ tw = SecretWord g.
Proof.
  intros Hs Ht Hloop.
  destruct (scoreWord_total g tw (replicate CONFIG_GAME_WORDLENGTH zero))
    as (hints' & Hscore & _ & _ & Hgreen); [done|done|apply length_replicate|].
  unfold scoreWord in Hscore. rewrite Hloop in Hscore. simpl in Hscore.
  injection Hscore as <-. exact Hgreen.
Qed.

Lemma step_status_invariant g g' :
  well_formed g → status_invariant g →
  step (hp := spec) g g' → status_invariant g'.
Proof.
  intros (_ & _ & Hplay) (Hsec & Hall & Hin & Hwon & Hlost) Hstep.
  destruct Hstep as [g self w single r g' single' HP|g self single r g' single' HR].
  - apply Play_cases in HP
      as [(_ & -> & _)|[(Hst & Hlen & _)|[(_ & _ & -> & _)|
          (Hst & Hlt & tw & hints & Hv & Hloop & -> & _)]]].
    + done.
    + specialize (Hplay Hst). lia.
    + done.
    + cbn [validateWord zeroHint spec_helpers] in Hv, Hloop.
      pose proof (validateWord_spec_length _ _ _ Hv) as Htw.
      pose proof (scoreLoop_all_green g tw hints Hsec Htw Hloop) as Hgreen.
      unfold status_invariant.
      rewrite recorded_SecretWord, recorded_Attempts, recorded_Status.
      cbn [isWinner spec_helpers].
      set (a := mkAttempt tw true hints) in *.
      split; [done|]. split.
      { apply Forall_app. split; [done|]. by apply Forall_singleton. }
      destruct (isWinner_spec a) eqn:Hw.
      * split; [done|]. split; [|done]. intros _. exists a.
        split; [apply last_snoc|]. by apply isWinner_spec_all_green.
      * assert (¬ all_green a) as Hna.
        { rewrite <- isWinner_spec_all_green. by rewrite Hw. }
        assert (Forall (λ a0, ¬ all_green a0) (Attempts g ++ [a])) as Hnone.
        { apply Forall_app. split; [by apply Hin|]. by apply Forall_singleton. }
        destruct (Nat.leb_spec 6 (S (length (Attempts g)))) as [Hsix|Hsix].
        -- split; [done|]. split; [done|]. intros _.
           split; [|done]. rewrite length_app. simpl. lia.
        -- rewrite Hst. split; [done|]. split; done.
  - pose proof (Resign_game self g single) as HG. rewrite HR in HG.
    simpl in HG. subst g'. unfold status_invariant. simpl.
    split_and!; done.
Qed.

Lemma reachable_status_invariant g :
  reachable (hp := spec) g → status_invariant g.
Proof.
  induction 1 as [sw gen x self single g err single' HC|g g' Hr IH Hstep].
  - apply Create_cases in HC as (word & sw' & Hv & ->). simpl in Hv.
    unfold status_invariant. simpl. split_and!; try done.
    + by eapply validateWord_spec_length.
  - eapply step_status_invariant; [|done..].
    by apply (reachable_well_formed (hp := spec)).
Qed.

(** With the helpers of the specification [Play] never panics on a game
    that the engine builds. *)
Lemma Play_returns self tryWord g single :
  reachable (hp := spec) g → is_Some (Play (hp := spec) self tryWord g single).
Proof.
  intros Hr.
  destruct (reachable_well_formed (hp := spec) g Hr) as (_ & _ & Hplay).
  destruct (reachable_status_invariant g Hr) as (Hsec & _).
  destruct (decide (Status g = InPlay)) as [Hst|Hst]; cycle 1.
  { rewrite Play_finished by done. by eexists. }
  specialize (Hplay Hst).
  destruct (validateWord (Helpers := spec) tryWord (SecretWord g))
    as [tw [err|]] eqn:Hv.
  { erewrite Play_rejected by done. by eexists. }
  rewrite (Play_accepted _ _ _ _ tw) by done.
  cbn [validateWord spec_helpers] in Hv.
  pose proof (validateWord_spec_length _ _ _ Hv) as Htw.
  destruct (scoreLoop_spec (SecretWord g) tw CONFIG_GAME_WORDLENGTH 0
              (replicate CONFIG_GAME_WORDLENGTH zero))
    as (hints & Hloop & _); [done|done|apply length_replicate|done|].
  cbn [zeroHint spec_helpers]. rewrite Hloop. by eexists.
Qed.

(** C3: for every game reachable by [Create] followed by any sequence of
    calls of [Play] and [Resign]: when the status is Won, the hints of the
    last attempt are all Green; when the status is Lost, the game holds
    exactly six attempts and none of them is a full match (its hints are
    not all Green and its word is not the secret); and there are never more
    than six attempts. *)
Theorem status_invariants g :
  reachable (hp := spec) g →
  (Status g = Won →
     ∃ a, last (Attempts g) = Some a ∧
          Forall (λ h, h = Green) (TryResult a)) ∧
  (Status g = Lost →
     length (Attempts g) = 6 ∧
     Forall (λ a, ¬ Forall (λ h, h = Green) (TryResult a) ∧
                  TryWord a ≠ SecretWord g) (Attempts g)) ∧
  length (Attempts g) ≤ 6.
Proof.
  intros Hr.
  destruct (reachable_well_formed (hp := spec) g Hr) as (_ & Hlen & _).
  destruct (reachable_status_invariant g Hr) as (_ & Hall & _ & Hwon & Hlost).
  split_and!; [done| |done].
  intros Hst. destruct (Hlost Hst) as [Hsix Hnone]. split; [done|].
  rewrite Forall_forall in Hall, Hnone. apply Forall_forall. intros a Ha.
  split; [by apply Hnone|]. intros Heq. apply (Hnone a Ha). by apply Hall.
Qed.
End SpecEngine.

(** * The example games *)

#[local] Existing Instance test_helpers.
#[local] Existing Instance text_reporting.

Lemma blank_created_game :
  blank_created.1 = (Some blank_game, None).
Proof. vm_compute. reflexivity. Qed.

Lemma blank_game_reachable :
  reachable (hp := test_helpers) (rp := text_reporting) blank_game.
Proof.
  eapply (reachable_Create (hp := test_helpers) "blank" ("", None)
            (mkXid "c" "9k2") 1 None blank_game None blank_created.2).
  change (blank_created = (Some blank_game, None, blank_created.2)).
  rewrite <- blank_created_game. by destruct blank_created.
Qed.

Lemma blank_won_game : fst <$> blank_won = Some won_game.
Proof. vm_compute. reflexivity. Qed.

Lemma blank_lost_game : fst <$> blank_lost = Some lost_game.
Proof. vm_compute. reflexivity. Qed.

Lemma won_game_reachable :
  reachable (hp := test_helpers) (rp := text_reporting) won_game.
Proof.
  pose proof blank_won_game as Hrun.
  destruct blank_won as [[g st]|] eqn:Hw; [|discriminate Hrun].
  injection Hrun as ->.
  eapply rtc_step_reachable; [apply blank_game_reachable|].
  eapply play_words_steps. exact Hw.
Qed.

Lemma lost_game_reachable :
  reachable (hp := test_helpers) (rp := text_reporting) lost_game.
Proof.
  pose proof blank_lost_game as Hrun.
  destruct blank_lost as [[g st]|] eqn:Hl; [|discriminate Hrun].
  injection Hrun as ->.
  eapply rtc_step_reachable; [apply blank_game_reachable|].
  eapply play_words_steps. exact Hl.
Qed.

(** * The claims on the example games *)

(** The invariants of the status on the lost game of the examples. *)
Lemma status_invariants_witness :
  reachable (hp := test_helpers) (rp := text_reporting) lost_game ∧
  length (Attempts lost_game) = 6 ∧
  Forall (λ a, ¬ Forall (λ h, h = Green) (TryResult a) ∧
               TryWord a ≠ SecretWord lost_game) (Attempts lost_game) ∧
  length (Attempts lost_game) ≤ 6.
Proof.
  pose proof (status_invariants test_words Grey lost_game lost_game_reachable)
    as (_ & Hlost & Hlen).
  split; [exact lost_game_reachable|].
  destruct (Hlost eq_refl) as [Hsix Hnone].
  split; [exact Hsix|]. split; [exact Hnone|exact Hlen].
Defined.

(** C4 (as stated): a terminal status is not kept by every operation.  The
    game [won_game], which [Create] and one call of [Play] build, has the
    status Won; [Resign] returns without error and leaves it Resigned. *)
Lemma Resign_leaves_Won :
  reachable (hp := test_helpers) (rp := text_reporting) won_game ∧
  Status won_game = Won ∧
  (Resign (rp := text_reporting) 1 won_game blank_created.2).1.1.2 = None ∧
  Status (Resign (rp := text_reporting) 1 won_game blank_created.2).1.2
    = Resigned ∧
  Resigned ≠ Status won_game.
Proof.
  split; [exact won_game_reachable|].
  split; [reflexivity|]. split; [vm_compute; reflexivity|].
  split; [vm_compute; reflexivity|discriminate].
Qed.

(** The terminal status on the won game of the examples. *)
Lemma terminal_status_after_calls_witness :
  Status won_game ≠ InPlay ∧
  (∀ self tryWord single r g' single',
     Play (hp := test_helpers) (rp := text_reporting) self tryWord won_game single
       = Some (r, g', single') →
     Status g' = Status won_game) ∧
  (∀ self single,
     Status (Resign (rp := text_reporting) self won_game single).1.2 = Resigned) ∧
  (∀ g', rtc (step (hp := test_helpers) (rp := text_reporting)) won_game g' →
     (Status g' = Status won_game ∨ Status g' = Resigned) ∧ Status g' ≠ InPlay).
Proof.
  assert (Hst : Status won_game ≠ InPlay) by discriminate.
  split; [exact Hst|].
  exact (terminal_status_after_calls (hp := test_helpers) (rp := text_reporting)
           won_game Hst).
Defined.

(** C5 (as stated): the seventh call of [Play] does not fail with "out of
    turns".  After [Create] and six calls of [Play] with the guess "drawn"
    the game is [lost_game]: six recorded attempts, no win, status Lost; a
    seventh call fails with "game is finished". *)
Lemma seventh_Play_is_GameFinished :
  fst <$> blank_lost = Some lost_game ∧
  length (Attempts lost_game) = 6 ∧
  Forall (λ a, isWinner_spec a = false) (Attempts lost_game) ∧
  (λ o : outcome, o.1.1.2)
    <$> Play (hp := test_helpers) (rp := text_reporting) 1 "drawn" lost_game
          blank_created.2
    = Some (Some (Errorf "game is finished")) ∧
  Errorf "game is finished" ≠ Errorf "out of turns".
Proof.
  split; [exact blank_lost_game|]. split; [reflexivity|].
  split; [repeat constructor|]. split; [vm_compute; reflexivity|discriminate].
Qed.

(** A call after six attempts, on a game value in play with six attempts
    and on the lost game of the examples. *)
Lemma Play_after_six_attempts_witness :
  (6 ≤ length (Attempts six_in_play) ∧ Status six_in_play = InPlay ∧
   Play (hp := test_helpers) (rp := text_reporting) 1 "drawn" six_in_play None
   = Some ((statusReport (set_Status Lost six_in_play),
            Some (Errorf "out of turns")),
           set_Status Lost six_in_play, None)) ∧
  (6 ≤ length (Attempts lost_game) ∧
   reachable (hp := test_helpers) (rp := text_reporting) lost_game ∧
   Play (hp := test_helpers) (rp := text_reporting) 1 "drawn" lost_game None
   = Some ((statusReport lost_game, Some (Errorf "game is finished")),
           lost_game, None)).
Proof.
  assert (Hsix : 6 ≤ length (Attempts six_in_play)) by (simpl; lia).
  assert (Hsix' : 6 ≤ length (Attempts lost_game)) by (simpl; lia).
  split.
  - split; [exact Hsix|]. split; [reflexivity|].
    destruct (Play_after_six_attempts (hp := test_helpers) (rp := text_reporting)
                1 "drawn" six_in_play None Hsix) as [Hplay _].
    exact (proj1 (Hplay eq_refl)).
  - split; [exact Hsix'|]. split; [exact lost_game_reachable|].
    destruct (Play_after_six_attempts (hp := test_helpers) (rp := text_reporting)
                1 "drawn" lost_game None Hsix') as [_ Hreach].
    exact (proj2 (Hreach lost_game_reachable)).
Defined.

(** A call of [Play] on the won game of the examples. *)
Lemma Play_on_finished_game_witness :
  Status won_game ≠ InPlay ∧
  ∃ g', Play (hp := test_helpers) (rp := text_reporting) 1 "drawn" won_game None
        = Some ((statusReport won_game, Some (Errorf "game is finished")),
                g', None)
     ∧ g' = won_game ∧ Attempts g' = Attempts won_game
     ∧ Status g' = Status won_game
     ∧ SecretWord g' = SecretWord won_game ∧ Id g' = Id won_game.
Proof.
  assert (Hst : Status won_game ≠ InPlay) by discriminate.
  split; [exact Hst|].
  exact (Play_on_finished_game (hp := test_helpers) (rp := text_reporting)
           1 "drawn" won_game None Hst).
Defined.

(** Two calls of [Resign] on the game that [Create] returns. *)
Lemma Resign_idempotent_witness :
  reachable (hp := test_helpers) (rp := text_reporting) blank_game ∧
  let '(r1, g1, single1) := Resign (rp := text_reporting) 1 blank_game None in
  let '(r2, g2, single2) := Resign (rp := text_reporting) 1 g1 single1 in
  r1 = (statusReport g1, None) ∧ Status g1 = Resigned ∧
  r2 = (statusReport g2, None) ∧ Status g2 = Resigned ∧ g2 = g1.
Proof.
  split; [exact blank_game_reachable|].
  exact (Resign_idempotent (hp := test_helpers) (rp := text_reporting)
           1 blank_game None blank_game_reachable).
Defined.

(** A call of [Play] with the guess "xxxxx", which is not a word. *)
Lemma Play_rejected_report_witness :
  (Status blank_game = InPlay ∧ length (Attempts blank_game) < 6 ∧
   validateWord (Helpers := test_helpers) "xxxxx" (SecretWord blank_game)
     = ("", Some ErrWordInvalid) ∧
   Play (hp := test_helpers) (rp := text_reporting) 1 "xxxxx" blank_game None
     = Some (("{}", Some ErrWordInvalid), blank_game, None)) ∧
  (∃ r e g' single',
     Play (hp := test_helpers) (rp := text_reporting) 1 "drawn" blank_game None
       = Some ((r, e), g', single') ∧
     (r = statusReport g' ∨
      (∃ a, last (Attempts g') = Some a ∧ r = turnReport g' a) ∨
      (r = "{}" ∧ g' = blank_game ∧
       ∃ tw err, validateWord "drawn" (SecretWord blank_game) = (tw, Some err)
                 ∧ e = Some err))).
Proof.
  assert (Hlen : length (Attempts blank_game) < 6) by (simpl; lia).
  assert (Hv : validateWord (Helpers := test_helpers) "xxxxx"
                 (SecretWord blank_game) = ("", Some ErrWordInvalid))
    by reflexivity.
  destruct (Play_rejected_report (hp := test_helpers) (rp := text_reporting)
              1 "xxxxx" blank_game None) as [Hrej _].
  destruct (Play_rejected_report (hp := test_helpers) (rp := text_reporting)
              1 "drawn" blank_game None) as [_ Hother].
  split.
  - split; [reflexivity|]. split; [exact Hlen|]. split; [exact Hv|].
    exact (Hrej "" ErrWordInvalid eq_refl Hlen Hv).
  - destruct (Play (hp := test_helpers) (rp := text_reporting) 1 "drawn"
                blank_game None) as [[[[r e] g'] single']|] eqn:HP.
    + exists r, e, g', single'. split; [reflexivity|].
      exact (Hother r e g' single' eq_refl).
    + vm_compute in HP. discriminate HP.
Defined.

(** * Further properties of the store *)

Section StoreMore.
Context {V : Type}.
Implicit Types (s : wordleStore V) (id : string) (v : content V).

Lemma Load_lookup s id :
  id ≠ "" → Load s id = (default None (games s !! id), None).
Proof.
  intros Hid. unfold Load. rewrite validateId_nonempty by done.
  by destruct (games s !! id).
Qed.

Lemma Exists_lookup s id :
  id ≠ "" → Exists s id = (bool_decide (is_Some (games s !! id)), None).
Proof.
  intros Hid. unfold Exists. rewrite validateId_nonempty by done.
  destruct (games s !! id) as [c|].
  - by rewrite bool_decide_eq_true_2 by eauto.
  - rewrite bool_decide_eq_false_2; [done|]. by intros [? ?].
Qed.

Lemma Delete_present s id c :
  id ≠ "" → games s !! id = Some c →
  Delete s id = (None, mkStore (delete id (games s))).
Proof.
  intros Hid Hc. unfold Delete. rewrite validateId_nonempty by done.
  by rewrite Hc.
Qed.

(** X1: [Save] overwrites and touches no other id: two calls of [Save] on the
    same id leave the store that the second one alone leaves, a following
    [Load] returns the second value, and [Load] and [Exists] of any other id
    answer as before the calls. *)
Theorem Save_overwrites_and_frames s id v1 v2 :
  id ≠ "" →
  let s' := (Save (Save s id v1).2 id v2).2 in
  s' = (Save s id v2).2 ∧
  Load s' id = (v2, None) ∧
  (∀ id', id' ≠ id → Load s' id' = Load s id' ∧ Exists s' id' = Exists s id').
Proof.
  intros Hid. cbn zeta. rewrite !Save_nonempty by done. cbn [snd games].
  rewrite insert_insert_eq. split; [done|].
  split; [by apply Load_after_Save|].
  intros id' Hne. unfold Load, Exists. cbn [games].
  rewrite lookup_insert_ne by done. done.
Qed.

(** X2: after [Save(id, v)], [Exists(id)] answers true whatever [v] is.  When
    [v] is the nil interface, [Load(id)] returns nil with no error, which is
    also its answer for an id that was never saved: [Load] alone does not
    tell a saved nil from a missing entry. *)
Theorem Exists_after_Save_even_nil s id v :
  id ≠ "" →
  Exists (Save s id v).2 id = (true, None) ∧
  Load (Save s id None).2 id = (None, None) ∧
  (games s !! id = None → Load s id = (None, None) ∧ Exists s id = (false, None)).
Proof.
  intros Hid. rewrite !Save_nonempty by done. cbn [snd].
  split_and!.
  - rewrite Exists_lookup by done. cbn [games]. by rewrite lookup_insert_eq.
  - by apply Load_after_Save.
  - intros Hno. unfold Load, Exists.
    rewrite validateId_nonempty by done. by rewrite Hno.
Qed.

(** X3: [Delete] of an id that has an entry succeeds and removes that entry
    only: afterwards [Exists] answers false, [Load] returns nil, a second
    [Delete] fails with InvalidId, and the other ids are as before. *)
Theorem Delete_removes_entry s id c :
  id ≠ "" → games s !! id = Some c →
  let s' := (Delete s id).2 in
  (Delete s id).1 = None ∧
  Exists s' id = (false, None) ∧
  Load s' id = (None, None) ∧
  Delete s' id = (Some ErrInvalidId, s') ∧
  (∀ id', id' ≠ id → games s' !! id' = games s !! id').
Proof.
  intros Hid Hc. cbn zeta. rewrite (Delete_present s id c) by done.
  cbn [fst snd]. split; [done|].
  assert (Hgone : games (mkStore (delete id (games s))) !! id = None)
    by apply lookup_delete_eq.
  split_and!.
  - unfold Exists. rewrite validateId_nonempty by done. by rewrite Hgone.
  - unfold Load. rewrite validateId_nonempty by done. by rewrite Hgone.
  - by apply Delete_absent.
  - intros id' Hne. cbn [games]. by apply lookup_delete_ne.
Qed.

(** X4: [Save] of a new id followed by [Delete] of that id gives back the store
    as it was, with no error from either call. *)
Theorem Delete_undoes_Save s id v :
  id ≠ "" → games s !! id = None →
  (Save s id v).1 = None ∧ Delete (Save s id v).2 id = (None, s).
Proof.
  intros Hid Hno. rewrite Save_nonempty by done. cbn [fst snd].
  split; [done|].
  rewrite (Delete_present _ id v) by (done || apply lookup_insert_eq).
  cbn [games]. rewrite delete_insert_eq, delete_id by done.
  by destruct s.
Qed.

(** X5: [PurgeAll] never fails and leaves no entry: afterwards, for every id,
    [Exists] does not answer true, [Load] returns no content and [Delete]
    fails with InvalidId. *)
Theorem PurgeAll_leaves_nothing s id :
  let s' := (PurgeAll s).2 in
  (PurgeAll s).1 = None ∧
  games s' = ∅ ∧
  (Exists s' id).1 = false ∧
  (Load s' id).1 = None ∧
  Delete s' id = (Some ErrInvalidId, s').
Proof.
  cbn zeta. rewrite PurgeAll_empty. split; [done|]. split; [done|].
  split_and!.
  - unfold Exists. by destruct (validateId id).
  - unfold Load. by destruct (validateId id).
  - by apply Delete_absent.
Qed.

(** X6: a call of [Save] or [Delete] that returns an error leaves the store as
    it was. *)
Theorem failed_call_keeps_store s id v :
  ((Save s id v).1 ≠ None → (Save s id v).2 = s) ∧
  ((Delete s id).1 ≠ None → (Delete s id).2 = s).
Proof.
  split.
  - unfold Save. by destruct (validateId id).
  - unfold Delete. destruct (validateId id); [done|].
    by destruct (games s !! id).
Qed.

(** X7: the store is a singleton: [WordleStore] never fails; its first call
    builds an empty store; a call made once the store exists returns that
    store and leaves the global as it is; and after [resetWordleStore] the
    next call builds an empty store again. *)
Theorem WordleStore_singleton (single : option (wordleStore V)) s :
  (WordleStore single).1.2 = None ∧
  WordleStore (V := V) None = ((mkStore ∅, None), Some (mkStore ∅)) ∧
  WordleStore (Some s) = ((s, None), Some s) ∧
  WordleStore (WordleStore single).2
    = ((WordleStore single).1, (WordleStore single).2) ∧
  WordleStore (resetWordleStore (Some s))
    = ((mkStore ∅, None), Some (mkStore ∅)).
Proof. by destruct single. Qed.
End StoreMore.

(** * Further properties of the engine, for any helpers *)

Section EngineMore.
Context {hp : Helpers} {rp : Reporting}.
Implicit Types (g : wordleGame) (single : option (wordleStore addr)).

Lemma scoreLoop_length secret tw n i score score' :
  scoreLoop secret tw n i score = Some score' → length score' = length score.
Proof.
  revert i score. induction n as [|n IH]; intros i score; simpl.
  - by intros [= <-].
  - destruct (hintAt secret tw i) as [h|]; [|done]. simpl.
    unfold store_hint. destruct (i <? length score); [|done]. simpl.
    intros Hloop. rewrite (IH _ _ Hloop). apply length_insert.
Qed.

Lemma Retrieve_saved single id self :
  id ≠ "" →
  let s' := (Save (getWordleStore single).1 id (Some self)).2 in
  Retrieve id (Some s') = ((Some self, None), Some s').
Proof.
  intros Hid. cbn zeta. rewrite Save_nonempty by done.
  unfold Retrieve. cbn [WordleStore getWordleStore snd].
  by rewrite Load_after_Save.
Qed.

(** What a step does to the fields of the game: the id and the secret word
    are kept, and the attempts are kept or extended by one attempt. *)
Lemma step_fields g g' :
  step g g' →
  Id g' = Id g ∧ SecretWord g' = SecretWord g ∧
  (Attempts g' = Attempts g ∨
   ∃ tw hints, Attempts g' = (Attempts g ++ [mkAttempt tw true hints])%list ∧
               length hints = CONFIG_GAME_WORDLENGTH).
Proof.
  intros Hstep.
  destruct Hstep as [g self w single r g' single' HP|g self single r g' single' HR].
  - apply Play_cases in HP
      as [(_ & -> & _)|[(_ & _ & -> & _)|[(_ & _ & -> & _)|
          (_ & _ & tw & hints & _ & Hloop & -> & _)]]];
      try (split_and!; [done|done|by left]).
    rewrite recorded_Id, recorded_SecretWord, recorded_Attempts.
    split_and!; [done|done|]. right. exists tw, hints. split; [done|].
    rewrite (scoreLoop_length _ _ _ _ _ _ Hloop). apply length_replicate.
  - pose proof (Resign_game self g single) as HG. rewrite HR in HG.
    simpl in HG. subst g'. split_and!; [done|done|by left].
Qed.

(** X8: [Create] fails without a game and without touching the store when the
    word generator fails (for an empty [secretWord]) or when [validateWord]
    rejects the word; a non-empty [secretWord] is validated as it is and the
    generator's result is not used. *)
Theorem Create_failures secretWord generated x self single w sw err :
  (generated = (w, Some err) →
     Create "" generated x self single = ((None, Some err), single)) ∧
  (generated = (w, None) → validateWord w w = (sw, Some err) →
     Create "" generated x self single = ((None, Some err), single)) ∧
  (secretWord ≠ "" →
     validateWord secretWord secretWord = (sw, Some err) →
     Create secretWord generated x self single = ((None, Some err), single)) ∧
  (secretWord ≠ "" →
     Create secretWord generated x self single
     = Create secretWord ("", None) x self single).
Proof.
  split_and!.
  - intros ->. reflexivity.
  - intros -> Hv. unfold Create. cbn [String.length Nat.ltb Nat.leb].
    by rewrite Hv.
  - intros Hne Hv. unfold Create. destruct secretWord; [done|].
    cbn [String.length Nat.ltb Nat.leb]. by rewrite Hv.
  - intros Hne. unfold Create. by destruct secretWord.
Qed.

(** X9: when [validateWord] accepts the word, [Create] returns a game in play
    with the xid as id, the validated word as secret and no attempt, with no
    error; the store then holds the address of the game under its id, so
    that [Retrieve] of the id returns it, and the entries of the other ids
    are as before. *)
Theorem Create_success secretWord generated x self single sw :
  secretWord ≠ "" →
  validateWord secretWord secretWord = (sw, None) →
  ∃ s', Create secretWord generated x self single
        = ((Some (mkGame (xid_String x) InPlay sw []), None), Some s') ∧
    Retrieve (xid_String x) (Some s') = ((Some self, None), Some s') ∧
    (∀ id', id' ≠ xid_String x →
       games s' !! id' = games (getWordleStore single).1 !! id').
Proof.
  intros Hne Hv.
  exists (Save (getWordleStore single).1 (xid_String x) (Some self)).2.
  assert (Hid : xid_String x ≠ "") by done.
  split_and!.
  - unfold Create. destruct secretWord; [done|].
    cbn [String.length Nat.ltb Nat.leb]. rewrite Hv.
    unfold WordleStore. destruct (getWordleStore single) as [gs s1].
    cbn [Id fst snd]. by rewrite Save_nonempty.
  - by apply Retrieve_saved.
  - intros id' Hne'. rewrite Save_nonempty by done. cbn [snd games].
    by apply lookup_insert_ne.
Qed.

(** X10: [Retrieve] fails with InvalidId for the empty id and with "content is
    not a game" for an id that has no entry or a nil one; it returns the
    stored pointer otherwise.  It never changes the entries of the store. *)
Theorem Retrieve_cases id single :
  let s := (getWordleStore single).1 in
  (Retrieve id single).2 = Some s ∧
  (id = "" → (Retrieve id single).1 = (None, Some ErrInvalidId)) ∧
  (id ≠ "" → default None (games s !! id) = None →
     (Retrieve id single).1 = (None, Some (Errorf "content is not a game"))) ∧
  (∀ game, id ≠ "" → games s !! id = Some (Some game) →
     (Retrieve id single).1 = (Some game, None)).
Proof.
  cbn zeta. unfold Retrieve, WordleStore.
  assert (Hs : (getWordleStore single).2 = Some (getWordleStore single).1)
    by (by destruct single).
  destruct (getWordleStore single) as [s s1]. cbn [fst snd] in *. subst s1.
  split_and!.
  - by destruct (Load s id) as [[c|] [e|]].
  - intros ->. reflexivity.
  - intros Hid Hno. rewrite Load_lookup by done. by rewrite Hno.
  - intros game Hid Hc. rewrite Load_lookup by done. by rewrite Hc.
Qed.

(** X11: along any sequence of calls of [Play] and [Resign] the id and the
    secret word of a game never change, and its attempts are only appended
    to: the earlier history is a prefix of the later one. *)
Theorem calls_keep_id_secret_history g g' :
  rtc step g g' →
  Id g' = Id g ∧ SecretWord g' = SecretWord g ∧
  Attempts g `prefix_of` Attempts g'.
Proof.
  induction 1 as [g|g g1 g2 Hstep _ (HI & HS & HA)]; [done|].
  destruct (step_fields _ _ Hstep) as (HI1 & HS1 & HA1).
  split_and!; [congruence|congruence|].
  etrans; [|exact HA].
  destruct HA1 as [->|(tw & hints & -> & _)]; [done|].
  by apply prefix_app_r.
Qed.

(** X12: every attempt that a game of the engine holds is marked valid and has
    one hint for each of the five positions. *)
Theorem attempts_are_valid_and_scored g :
  reachable g →
  Forall (λ a, IsValidWord a = true ∧
               length (TryResult a) = CONFIG_GAME_WORDLENGTH) (Attempts g).
Proof.
  induction 1 as [sw gen x self single g err single' HC|g g' _ IH Hstep].
  - apply Create_cases in HC as (word & sw' & _ & ->). constructor.
  - destruct (step_fields _ _ Hstep) as (_ & _ & [->|(tw & hints & -> & Hl)]);
      [done|].
    apply Forall_app. split; [done|]. by apply Forall_singleton.
Qed.

(** X13: [Play] returns a nil error only when it has recorded the guess: the
    word was accepted by [validateWord], exactly one attempt holding the
    validated word and five hints was appended, the report is the turn
    report of that attempt, and the store holds the address of the game
    under its id. *)
Theorem Play_without_error_has_recorded self tryWord g single r g' single' :
  Play self tryWord g single = Some ((r, None), g', single') →
  ∃ tw hints,
    validateWord tryWord (SecretWord g) = (tw, None) ∧
    Attempts g' = (Attempts g ++ [mkAttempt tw true hints])%list ∧
    length hints = CONFIG_GAME_WORDLENGTH ∧
    r = turnReport g' (mkAttempt tw true hints) ∧
    Retrieve (Id g') single' = ((Some self, None), single').
Proof.
  intros HP.
  destruct (decide (Status g = InPlay)) as [Hst|Hst]; cycle 1.
  { by rewrite Play_finished in HP by done. }
  destruct (Nat.le_gt_cases 6 (length (Attempts g))) as [Hlen|Hlen].
  { by rewrite Play_out_of_turns in HP by done. }
  destruct (validateWord tryWord (SecretWord g)) as [tw [err|]] eqn:Hv.
  { erewrite Play_rejected in HP by done. by injection HP. }
  rewrite (Play_accepted _ _ _ _ tw) in HP by done.
  destruct (scoreLoop _ _ _ _ _) as [hints|] eqn:Hloop; [|done].
  cbn zeta in HP.
  destruct (WordleStore_Save single (Id g) self) as (gs & Hgs & [[Hid HS]|[Hid HS]]);
    rewrite Hgs in HP; cbn [fst] in HP; rewrite HS in HP; cbn [fst snd] in HP;
    [by injection HP|].
  injection HP as <- <- <-. exists tw, hints.
  split_and!; [done|apply recorded_Attempts| |done|].
  - rewrite (scoreLoop_length _ _ _ _ _ _ Hloop). apply length_replicate.
  - rewrite recorded_Id. unfold Retrieve. cbn [WordleStore getWordleStore].
    by rewrite Load_after_Save.
Qed.

(** X14: [Resign] changes nothing but the status: the id, the secret word and
    the attempts are kept; on a game with a non-empty id the store then holds
    the address of the game under its id; and every later call of [Play] is
    refused with "game is finished". *)
Theorem Resign_keeps_game_and_ends_play self g single tryWord single2 :
  Id g ≠ "" →
  let '(r, g', single') := Resign self g single in
  r.2 = None ∧
  Id g' = Id g ∧ SecretWord g' = SecretWord g ∧ Attempts g' = Attempts g ∧
  Retrieve (Id g) single' = ((Some self, None), single') ∧
  Play self tryWord g' single2
  = Some ((statusReport g', Some (Errorf "game is finished")), g', single2).
Proof.
  intros Hid. unfold Resign.
  destruct (WordleStore_Save single (Id g) self) as (gs & Hgs & [[? _]|[_ HS]]);
    [done|].
  unfold WordleStore. rewrite Hgs. cbn [Id set_Status]. rewrite HS.
  split_and!; [done..| |].
  - unfold Retrieve. cbn [WordleStore getWordleStore].
    by rewrite Load_after_Save.
  - by apply Play_finished.
Qed.

(** X15: whatever [isWinner] is, the status of a game of the engine tells what
    [isWinner] said of its attempts: while the status is InPlay or Lost no
    attempt was accepted by [isWinner]; when it is Won the last attempt was;
    and when it is Lost there are exactly six attempts. *)
Theorem status_reflects_isWinner g :
  reachable g →
  (Status g = InPlay ∨ Status g = Lost →
     Forall (λ a, isWinner a = false) (Attempts g)) ∧
  (Status g = Won → ∃ a, last (Attempts g) = Some a ∧ isWinner a = true) ∧
  (Status g = Lost → length (Attempts g) = 6).
Proof.
  intros Hr. induction Hr as [sw gen x self single g err single' HC|g g' Hr IH Hstep].
  - apply Create_cases in HC as (word & sw' & _ & ->). simpl.
    split_and!; [by constructor|done|done].
  - destruct IH as (Hnone & Hwon & Hlost).
    destruct (reachable_well_formed g Hr) as (_ & _ & Hplay).
    destruct Hstep as [g self w single r g' single' HP|g self single r g' single' HR].
    + apply Play_cases in HP
        as [(_ & -> & _)|[(Hst & Hlen & _)|[(_ & _ & -> & _)|
            (Hst & Hlt & tw & hints & _ & _ & -> & _)]]]; try done.
      { specialize (Hplay Hst). lia. }
      rewrite recorded_Attempts, recorded_Status, length_app. cbn [length].
      destruct (isWinner (mkAttempt tw true hints)) eqn:Hw.
      * split_and!; [by intros [?|?]| |done].
        intros _. eexists. split; [apply last_snoc|done].
      * assert (Forall (λ a, isWinner a = false)
                  (Attempts g ++ [mkAttempt tw true hints])) as Hall.
        { apply Forall_app. split; [by apply Hnone; left|].
          by apply Forall_singleton. }
        destruct (Nat.leb_spec 6 (S (length (Attempts g)))).
        -- split_and!; [done|done|]. intros _. lia.
        -- rewrite Hst. split_and!; done.
    + pose proof (Resign_game self g single) as HG. rewrite HR in HG.
      simpl in HG. subst g'. simpl. split_and!; [by intros [?|?]|done|done].
Qed.

(** X16: when [validateWord] only returns words of the configured length, the
    secret word and the word of every attempt of a game of the engine have
    that length, and no call of [Play] on such a game panics. *)
Theorem Play_never_panics g :
  (∀ w s tw, validateWord w s = (tw, None) →
             String.length tw = CONFIG_GAME_WORDLENGTH) →
  reachable g →
  String.length (SecretWord g) = CONFIG_GAME_WORDLENGTH ∧
  Forall (λ a, String.length (TryWord a) = CONFIG_GAME_WORDLENGTH)
    (Attempts g) ∧
  (∀ self tryWord single, is_Some (Play self tryWord g single)).
Proof.
  intros Hval Hr.
  assert (String.length (SecretWord g) = CONFIG_GAME_WORDLENGTH ∧
          Forall (λ a, String.length (TryWord a) = CONFIG_GAME_WORDLENGTH)
            (Attempts g)) as [Hsec Hall].
  { induction Hr as [sw gen x self single g err single' HC|g g' Hr IH Hstep].
    - apply Create_cases in HC as (word & sw' & Hv & ->). simpl.
      split; [by eapply Hval|constructor].
    - destruct IH as [Hsec Hall].
      destruct Hstep as [g self w single r g' single' HP|g self single r g' single' HR].
      + apply Play_cases in HP
          as [(_ & -> & _)|[(_ & _ & -> & _)|[(_ & _ & -> & _)|
              (_ & _ & tw & hints & Hv & _ & -> & _)]]]; try done.
        rewrite recorded_SecretWord, recorded_Attempts. split; [done|].
        apply Forall_app. split; [done|]. apply Forall_singleton.
        by eapply Hval.
      + pose proof (Resign_game self g single) as HG. rewrite HR in HG.
        simpl in HG. by subst g'. }
  split_and!; [done..|]. intros self w single.
  destruct (reachable_well_formed g Hr) as (_ & _ & Hplay).
  destruct (decide (Status g = InPlay)) as [Hst|Hst]; cycle 1.
  { rewrite Play_finished by done. by eexists. }
  specialize (Hplay Hst).
  destruct (validateWord w (SecretWord g)) as [tw [err|]] eqn:Hv.
  { erewrite Play_rejected by done. by eexists. }
  rewrite (Play_accepted _ _ _ _ tw) by done.
  destruct (scoreLoop_spec (SecretWord g) tw CONFIG_GAME_WORDLENGTH 0
              (replicate CONFIG_GAME_WORDLENGTH zeroHint))
    as (hints & -> & _); [done|by eapply Hval|apply length_replicate|done|].
  by eexists.
Qed.
End EngineMore.

(** * Further properties of the scoring *)

Section ScoringMore.
Implicit Types (secret tryWord : string) (score : list LetterHint).

Lemma hintAt_total_ge secret tryWord i :
  CONFIG_GAME_WORDLENGTH ≤ String.length secret →
  CONFIG_GAME_WORDLENGTH ≤ String.length tryWord →
  i < CONFIG_GAME_WORDLENGTH →
  ∃ h, hintAt secret tryWord i = Some h ∧
       (h = Green ↔ index secret i = index tryWord i).
Proof.
  intros Hs Ht Hi. unfold hintAt.
  destruct (index_lt secret i) as [si Hsi]; [lia|].
  destruct (index_lt tryWord i) as [ti Hti]; [lia|].
  rewrite Hsi, Hti. cbn [mbind option_bind].
  destruct (decide (si = ti)) as [->|Hne]; [by eexists|].
  assert (Some si ≠ Some ti) by congruence.
  destruct (0 <? strings_Count secret (string_of_byte ti));
    [|by eexists].
  destruct (creditLeft_total secret tryWord i (string_of_byte ti))
    as [l ->]; [lia..|]. cbn [mbind option_bind].
  destruct l; [by eexists|].
  destruct (creditRight_total secret tryWord i (string_of_byte ti))
    as [r ->]; [unfold CONFIG_GAME_WORDLENGTH in *; lia..|].
  cbn [mbind option_bind]. destruct r; by eexists.
Qed.

(** A loop that returns has evaluated the body and written the hint at
    every index it went through. *)
Lemma scoreLoop_Some secret tryWord n i score score' :
  scoreLoop secret tryWord n i score = Some score' →
  ∀ j, i ≤ j < i + n →
       is_Some (hintAt secret tryWord j) ∧ j < length score.
Proof.
  revert i score. induction n as [|n IH]; intros i score; simpl; [lia|].
  destruct (hintAt secret tryWord i) as [h|] eqn:Hh; [|done]. simpl.
  unfold store_hint. destruct (Nat.ltb_spec i (length score)); [|done].
  simpl. intros Hloop j Hj.
  destruct (decide (j = i)) as [->|Hne]; [by rewrite Hh|].
  destruct (IH _ _ Hloop j) as [Hj1 Hj2]; [lia|].
  split; [done|]. by rewrite length_insert in Hj2.
Qed.

Lemma scoreLoop_spec_ge secret tryWord n i score :
  CONFIG_GAME_WORDLENGTH ≤ String.length secret →
  CONFIG_GAME_WORDLENGTH ≤ String.length tryWord →
  CONFIG_GAME_WORDLENGTH ≤ length score →
  i + n = CONFIG_GAME_WORDLENGTH →
  ∃ score', scoreLoop secret tryWord n i score = Some score' ∧
    (∀ j, j < i ∨ CONFIG_GAME_WORDLENGTH ≤ j → score' !! j = score !! j) ∧
    (∀ j, i ≤ j < CONFIG_GAME_WORDLENGTH →
          score' !! j = hintAt secret tryWord j).
Proof.
  intros Hs Ht. revert i score.
  induction n as [|n IH]; intros i score Hlen Hin; simpl.
  - exists score. split_and!; [done|done|]. intros j ?. lia.
  - destruct (hintAt_total_ge secret tryWord i) as (h & Hh & _);
      [done|done|lia|].
    rewrite Hh. simpl. unfold store_hint.
    destruct (Nat.ltb_spec i (length score)); [|lia]. simpl.
    destruct (IH (S i) (<[i := h]> score)) as (score' & Hloop & Hout & Hin').
    { by rewrite length_insert. }
    { lia. }
    exists score'. split_and!; [done| |].
    + intros j Hj. rewrite Hout by lia. apply list_lookup_insert_ne. lia.
    + intros j Hj. destruct (decide (j = i)) as [->|Hne].
      * rewrite Hout by lia. rewrite list_lookup_insert_eq by lia. done.
      * apply Hin'. lia.
Qed.

(** X17: [scoreWord] panics exactly when the secret word, the guess or the
    result slice is shorter than the configured word length. *)
Theorem scoreWord_panics_iff_short (g : wordleGame) tryWord score :
  scoreWord g tryWord (Some score) = None ↔
  String.length (SecretWord g) < CONFIG_GAME_WORDLENGTH ∨
  String.length tryWord < CONFIG_GAME_WORDLENGTH ∨
  length score < CONFIG_GAME_WORDLENGTH.
Proof.
  unfold scoreWord. split.
  - intros Hnone.
    destruct (Nat.le_gt_cases CONFIG_GAME_WORDLENGTH (String.length (SecretWord g)));
      [|by left].
    destruct (Nat.le_gt_cases CONFIG_GAME_WORDLENGTH (String.length tryWord));
      [|by right; left].
    destruct (Nat.le_gt_cases CONFIG_GAME_WORDLENGTH (length score));
      [|by right; right].
    destruct (scoreLoop_spec_ge (SecretWord g) tryWord CONFIG_GAME_WORDLENGTH 0
                score) as (score' & Hloop & _); [done..|].
    by rewrite Hloop in Hnone.
  - intros Hshort.
    destruct (scoreLoop _ _ _ _ _) as [score'|] eqn:Hloop; [|done].
    exfalso.
    pose proof (scoreLoop_Some _ _ _ _ _ _ Hloop) as Hall.
    destruct Hshort as [Hs|[Ht|Hl]].
    + destruct (Hall (String.length (SecretWord g))) as [[h Hh] _]; [lia|].
      unfold hintAt, index in Hh.
      assert (String.get (String.length (SecretWord g)) (SecretWord g) = None)
        as Hget.
      { generalize (SecretWord g). intros s. induction s; simpl; done. }
      by rewrite Hget in Hh.
    + destruct (Hall (String.length tryWord)) as [[h Hh] _]; [lia|].
      unfold hintAt, index in Hh.
      assert (String.get (String.length tryWord) tryWord = None) as Hget.
      { clear. induction tryWord; simpl; done. }
      rewrite Hget in Hh.
      by destruct (String.get (String.length tryWord) (SecretWord g)).
    + destruct (Hall (length score)) as [_ Hlt]; lia.
Qed.

(** X18: on inputs of at least the configured length [scoreWord] returns no
    error and writes the first five entries of the slice only.  Each of them
    depends on the two words alone, not on what the slice held, and is Green
    exactly when the guess and the secret hold the same byte at that
    position. *)
Theorem scoreWord_writes_five_hints (g : wordleGame) tryWord score :
  CONFIG_GAME_WORDLENGTH ≤ String.length (SecretWord g) →
  CONFIG_GAME_WORDLENGTH ≤ String.length tryWord →
  CONFIG_GAME_WORDLENGTH ≤ length score →
  ∃ hints,
    scoreWord g tryWord (Some score)
    = Some ((hints ++ drop CONFIG_GAME_WORDLENGTH score)%list, None) ∧
    length hints = CONFIG_GAME_WORDLENGTH ∧
    (∀ j, j < CONFIG_GAME_WORDLENGTH →
          hints !! j = hintAt (SecretWord g) tryWord j ∧
          (hints !! j = Some Green ↔
           index (SecretWord g) j = index tryWord j)).
Proof.
  intros Hs Ht Hl. unfold scoreWord.
  destruct (scoreLoop_spec_ge (SecretWord g) tryWord CONFIG_GAME_WORDLENGTH 0
              score) as (score' & Hloop & Hout & Hin); [done..|].
  pose proof (scoreLoop_length _ _ _ _ _ _ Hloop) as Hlen.
  rewrite Hloop. cbn [mbind option_bind].
  exists (take CONFIG_GAME_WORDLENGTH score').
  assert (drop CONFIG_GAME_WORDLENGTH score' = drop CONFIG_GAME_WORDLENGTH score)
    as Hdrop.
  { apply list_eq. intros k. rewrite !lookup_drop. apply Hout. lia. }
  split_and!.
  - by rewrite <- Hdrop, take_drop.
  - rewrite length_take. lia.
  - intros j Hj. rewrite lookup_take_lt by done. rewrite Hin by lia.
    split; [done|].
    destruct (hintAt_total_ge (SecretWord g) tryWord j) as (h & -> & Hgreen);
      [done..|].
    rewrite <- Hgreen. split; [by intros [= ->]|by intros ->].
Qed.
Lemma string_of_byte_ascii (b : ascii) :
  (N_of_ascii b < 128)%N → string_of_byte b = String b EmptyString.
Proof.
  destruct b as [b0 b1 b2 b3 b4 b5 b6 [|]]; [|done].
  intros Hlt. exfalso. revert Hlt.
  destruct b0, b1, b2, b3, b4, b5, b6; by vm_compute.
Qed.

Lemma strings_Count_byte (s : string) (b : ascii) :
  strings_Count s (String b EmptyString) = occurrences b s.
Proof.
  unfold strings_Count, occurrences, bytes.
  induction s as [|a s IH]; [done|].
  cbn [countFrom String.length Nat.sub String.prefix list_ascii_of_string].
  rewrite filter_cons.
  destruct (ascii_dec b a) as [->|Hne].
  - rewrite decide_True by done. cbn [length]. rewrite <- IH.
    by destruct s.
  - rewrite decide_False by done. exact IH.
Qed.

Lemma occurrences_0 (b : ascii) (s : string) :
  occurrences b s = 0 ↔ b ∉ bytes s.
Proof.
  unfold occurrences. induction (bytes s) as [|a l IH]; simpl.
  - split; [intros _; apply not_elem_of_nil|done].
  - rewrite filter_cons, not_elem_of_cons. case_decide as Ha; simpl.
    + subst a. split; [done|]. by intros [? _].
    + rewrite IH. split; [by intros ?; split|by intros [_ ?]].
Qed.

Lemma bytes_substring (i n : nat) (s : string) :
  bytes (String.substring i n s) = take n (drop i (bytes s)).
Proof.
  unfold bytes. revert i n. induction s as [|a s IH]; intros i n.
  - by destruct i, n.
  - destruct i as [|i]; simpl.
    + destruct n as [|n]; simpl; [done|]. f_equal. apply (IH 0 n).
    + apply IH.
Qed.

(** A byte that does not occur in a prefix does not occur in the pieces of
    that prefix. *)
Lemma occurrences_0_substring (b : ascii) (s : string) (m i n : nat) :
  occurrences b (String.substring 0 m s) = 0 → i + n ≤ m →
  occurrences b (String.substring i n s) = 0.
Proof.
  rewrite !occurrences_0, !bytes_substring. cbn [drop].
  intros Hno Hle Hin. apply Hno.
  apply elem_of_take in Hin as (k & Hk & Hlt).
  rewrite lookup_drop in Hk. apply elem_of_take. exists (i + k).
  split; [done|lia].
Qed.

(** X19: a letter that the secret does not hold among its first four bytes is
    never hinted Yellow: its hint is Green where the secret holds the same
    byte (which can only be at the last position) and Grey everywhere else.
    This covers the letters that the secret does not hold at all, and also
    the letter that the secret holds at its last position only. *)
Theorem letter_outside_first_four_never_Yellow (g : wordleGame) tryWord score
    (i : nat) (b : ascii) :
  CONFIG_GAME_WORDLENGTH ≤ String.length (SecretWord g) →
  CONFIG_GAME_WORDLENGTH ≤ String.length tryWord →
  CONFIG_GAME_WORDLENGTH ≤ length score →
  i < CONFIG_GAME_WORDLENGTH →
  index tryWord i = Some b → (N_of_ascii b < 128)%N →
  occurrences b
    (String.substring 0 (CONFIG_GAME_WORDLENGTH - 1) (SecretWord g)) = 0 →
  ∃ hints, scoreWord g tryWord (Some score) = Some (hints, None) ∧
    hints !! i
    = Some (if decide (index (SecretWord g) i = Some b) then Green else Grey) ∧
    (index (SecretWord g) i = Some b → i = CONFIG_GAME_WORDLENGTH - 1).
Proof.
  intros Hs Ht Hl Hi Hb Hascii Hocc. unfold scoreWord.
  destruct (scoreLoop_spec_ge (SecretWord g) tryWord CONFIG_GAME_WORDLENGTH 0
              score) as (hints & Hloop & _ & Hin); [done..|].
  rewrite Hloop. exists hints. split; [done|].
  rewrite Hin by lia.
  set (secret := SecretWord g) in *.
  assert (Hfour : index secret i = Some b → i = CONFIG_GAME_WORDLENGTH - 1).
  { intros Hsi. destruct (decide (i = CONFIG_GAME_WORDLENGTH - 1)); [done|].
    exfalso. apply occurrences_0 in Hocc. apply Hocc.
    rewrite bytes_substring. cbn [drop]. apply elem_of_take. exists i.
    split; [|unfold CONFIG_GAME_WORDLENGTH in *; lia].
    clear -Hsi. unfold index, bytes in *. revert i Hsi.
    induction secret as [|a s IH]; intros [|i]; simpl; try done.
    apply IH. }
  split; [|done].
  unfold hintAt. rewrite Hb.
  destruct (index_lt secret i) as [si Hsi]; [lia|]. rewrite Hsi.
  cbn [mbind option_bind].
  destruct (decide (si = b)) as [->|Hne].
  { by rewrite decide_True. }
  rewrite decide_False by congruence.
  rewrite string_of_byte_ascii by done.
  destruct (0 <? strings_Count secret (String b EmptyString)); [|done].
  unfold creditLeft, creditRight.
  destruct (slice_in_range secret 0 i) as [sl Hsl]; [lia..|].
  destruct (slice_in_range secret i (CONFIG_GAME_WORDLENGTH - 1))
    as [sr Hsr]; [unfold CONFIG_GAME_WORDLENGTH in *; lia..|].
  rewrite Hsl, Hsr. cbn [mbind option_bind].
  assert (strings_Count sl (String b EmptyString) = 0) as ->.
  { unfold slice in Hsl. destruct (_ && _); [|done]. injection Hsl as <-.
    rewrite strings_Count_byte. eapply occurrences_0_substring; [exact Hocc|].
    unfold CONFIG_GAME_WORDLENGTH in *. lia. }
  assert (strings_Count sr (String b EmptyString) = 0) as ->.
  { unfold slice in Hsr. destruct (_ && _); [|done]. injection Hsr as <-.
    rewrite strings_Count_byte. eapply occurrences_0_substring; [exact Hocc|].
    unfold CONFIG_GAME_WORDLENGTH in *. lia. }
  done.
Qed.

End ScoringMore.

(** * The further properties on examples *)

(** Two saves under "g1" in the empty store. *)
Lemma Save_overwrites_and_frames_witness :
  let s : wordleStore nat := mkStore ∅ in
  let s' := (Save (Save s "g1" (Some 1)).2 "g1" (Some 2)).2 in
  "g1" ≠ "" ∧
  s' = (Save s "g1" (Some 2)).2 ∧
  Load s' "g1" = (Some 2, None) ∧
  (∀ id', id' ≠ "g1" →
     Load s' id' = Load s id' ∧ Exists s' id' = Exists s id').
Proof.
  cbv zeta. assert (Hid : "g1" ≠ "") by discriminate.
  split; [exact Hid|].
  exact (Save_overwrites_and_frames (mkStore (V := nat) ∅) "g1"
           (Some 1) (Some 2) Hid).
Defined.

(** A nil content saved under "g1" in the empty store. *)
Lemma Exists_after_Save_even_nil_witness :
  let s : wordleStore nat := mkStore ∅ in
  "g1" ≠ "" ∧ games s !! "g1" = None ∧
  Exists (Save s "g1" None).2 "g1" = (true, None) ∧
  Load (Save s "g1" None).2 "g1" = (None, None) ∧
  Load s "g1" = (None, None) ∧ Exists s "g1" = (false, None).
Proof.
  cbv zeta. assert (Hid : "g1" ≠ "") by discriminate.
  destruct (Exists_after_Save_even_nil (mkStore (V := nat) ∅) "g1" None Hid)
    as (H1 & H2 & H3).
  split; [exact Hid|]. split; [reflexivity|].
  split; [exact H1|]. split; [exact H2|]. exact (H3 eq_refl).
Defined.

(** The deletion of the only entry of a store. *)
Lemma Delete_removes_entry_witness :
  let s : wordleStore nat := mkStore (<["g1" := Some 7]> ∅) in
  let s' := (Delete s "g1").2 in
  "g1" ≠ "" ∧ games s !! "g1" = Some (Some 7) ∧
  (Delete s "g1").1 = None ∧
  Exists s' "g1" = (false, None) ∧
  Load s' "g1" = (None, None) ∧
  Delete s' "g1" = (Some ErrInvalidId, s') ∧
  (∀ id', id' ≠ "g1" → games s' !! id' = games s !! id').
Proof.
  cbv zeta. assert (Hid : "g1" ≠ "") by discriminate.
  assert (Hc : games (mkStore (V := nat) (<["g1" := Some 7]> ∅)) !! "g1"
               = Some (Some 7)) by (vm_compute; reflexivity).
  split; [exact Hid|]. split; [exact Hc|].
  exact (Delete_removes_entry _ "g1" (Some 7) Hid Hc).
Defined.

(** A save under a new id, then its deletion. *)
Lemma Delete_undoes_Save_witness :
  let s : wordleStore nat := mkStore (<["g1" := Some 7]> ∅) in
  "g2" ≠ "" ∧ games s !! "g2" = None ∧
  (Save s "g2" (Some 8)).1 = None ∧
  Delete (Save s "g2" (Some 8)).2 "g2" = (None, s).
Proof.
  cbv zeta. assert (Hid : "g2" ≠ "") by discriminate.
  assert (Hno : games (mkStore (V := nat) (<["g1" := Some 7]> ∅)) !! "g2"
                = None) by (vm_compute; reflexivity).
  split; [exact Hid|]. split; [exact Hno|].
  exact (Delete_undoes_Save _ "g2" (Some 8) Hid Hno).
Defined.

(** A save with the empty id and the deletion of a missing id. *)
Lemma failed_call_keeps_store_witness :
  let s : wordleStore nat := mkStore (<["g1" := Some 7]> ∅) in
  (Save s "" (Some 8)).1 ≠ None ∧ (Delete s "g2").1 ≠ None ∧
  (Save s "" (Some 8)).2 = s ∧ (Delete s "g2").2 = s.
Proof.
  cbv zeta.
  assert (H1 : (Save (mkStore (V := nat) (<["g1" := Some 7]> ∅)) ""
                  (Some 8)).1 ≠ None) by discriminate.
  assert (H2 : (Delete (mkStore (V := nat) (<["g1" := Some 7]> ∅)) "g2").1
               ≠ None) by (vm_compute; discriminate).
  split; [exact H1|]. split; [exact H2|].
  split.
  - exact (proj1 (failed_call_keeps_store _ "" (Some 8)) H1).
  - exact (proj2 (failed_call_keeps_store _ "g2" (Some 8)) H2).
Defined.

(** [Create] with a failing generator, with a generated word that is not in
    the dictionary, and with a secret that is not in the dictionary. *)
Lemma Create_failures_witness :
  let x := mkXid "c" "9k2" in
  Create (hp := test_helpers) "" ("", Some (Errorf "no words")) x 1 None
    = ((None, Some (Errorf "no words")), None) ∧
  Create (hp := test_helpers) "" ("xxxxx", None) x 1 None
    = ((None, Some ErrWordInvalid), None) ∧
  Create (hp := test_helpers) "xxxxx" ("blank", None) x 1 None
    = ((None, Some ErrWordInvalid), None) ∧
  Create (hp := test_helpers) "blank" ("xxxxx", None) x 1 None
    = Create (hp := test_helpers) "blank" ("", None) x 1 None.
Proof.
  cbv zeta. split_and!.
  - exact (proj1 (Create_failures (hp := test_helpers) "" _ _ 1 None
                    "" "" (Errorf "no words")) eq_refl).
  - exact (proj1 (proj2 (Create_failures (hp := test_helpers) "" _ _ 1 None
                           "xxxxx" "" ErrWordInvalid)) eq_refl eq_refl).
  - assert (Hne : "xxxxx" ≠ "") by discriminate.
    exact (proj1 (proj2 (proj2 (Create_failures (hp := test_helpers) "xxxxx"
                           ("blank", None) _ 1 None "" "" ErrWordInvalid)))
             Hne eq_refl).
  - assert (Hne : "blank" ≠ "") by discriminate.
    exact (proj2 (proj2 (proj2 (Create_failures (hp := test_helpers) "blank"
                           ("xxxxx", None) _ 1 None "" "" ErrWordInvalid)))
             Hne).
Defined.

(** [Create] with the secret "BLANK", which the dictionary holds in lower
    case. *)
Lemma Create_success_witness :
  "BLANK" ≠ "" ∧
  validateWord (Helpers := test_helpers) "BLANK" "BLANK" = ("blank", None) ∧
  ∃ s', Create (hp := test_helpers) "BLANK" ("", None) (mkXid "c" "9k2") 1 None
        = ((Some (mkGame "c9k2" InPlay "blank" []), None), Some s') ∧
    Retrieve "c9k2" (Some s') = ((Some 1, None), Some s') ∧
    (∀ id', id' ≠ "c9k2" →
       games s' !! id' = games (getWordleStore (V := addr) None).1 !! id').
Proof.
  assert (Hne : "BLANK" ≠ "") by discriminate.
  assert (Hv : validateWord (Helpers := test_helpers) "BLANK" "BLANK"
               = ("blank", None)) by reflexivity.
  split; [exact Hne|]. split; [exact Hv|].
  exact (Create_success (hp := test_helpers) "BLANK" ("", None)
           (mkXid "c" "9k2") 1 None "blank" Hne Hv).
Defined.

(** [Retrieve] of the empty id, of a missing id and of the id of the created
    game, in the store that [Create] leaves. *)
Lemma Retrieve_cases_witness :
  let single := blank_created.2 in
  (Retrieve "" single).1 = (None, Some ErrInvalidId) ∧
  (Retrieve "zzzz" single).1 = (None, Some (Errorf "content is not a game")) ∧
  (Retrieve "c9k2" single).1 = (Some 1, None).
Proof.
  cbv zeta. split_and!.
  - exact (proj1 (proj2 (Retrieve_cases "" blank_created.2)) eq_refl).
  - assert (Hid : "zzzz" ≠ "") by discriminate.
    refine (proj1 (proj2 (proj2 (Retrieve_cases "zzzz" blank_created.2)))
              Hid _).
    vm_compute; reflexivity.
  - assert (Hid : "c9k2" ≠ "") by discriminate.
    refine (proj2 (proj2 (proj2 (Retrieve_cases "c9k2" blank_created.2)))
              1 Hid _).
    vm_compute; reflexivity.
Defined.

Lemma blank_game_to_lost_game :
  rtc (step (hp := test_helpers) (rp := text_reporting)) blank_game lost_game.
Proof.
  pose proof blank_lost_game as Hrun.
  destruct blank_lost as [[g st]|] eqn:Hl; [|discriminate Hrun].
  injection Hrun as ->. eapply play_words_steps. exact Hl.
Qed.

Lemma test_helpers_length w s tw :
  validateWord (Helpers := test_helpers) w s = (tw, None) →
  String.length tw = CONFIG_GAME_WORDLENGTH.
Proof. apply validateWord_spec_length. Qed.

(** The six calls of [Play] that lead from the created game to the lost
    one. *)
Lemma calls_keep_id_secret_history_witness :
  rtc (step (hp := test_helpers) (rp := text_reporting)) blank_game lost_game ∧
  Id lost_game = Id blank_game ∧
  SecretWord lost_game = SecretWord blank_game ∧
  Attempts blank_game `prefix_of` Attempts lost_game.
Proof.
  split; [exact blank_game_to_lost_game|].
  exact (calls_keep_id_secret_history (hp := test_helpers)
           (rp := text_reporting) blank_game lost_game blank_game_to_lost_game).
Defined.

(** The attempts of the lost game of the examples. *)
Lemma attempts_are_valid_and_scored_witness :
  reachable (hp := test_helpers) (rp := text_reporting) lost_game ∧
  Forall (λ a, IsValidWord a = true ∧
               length (TryResult a) = CONFIG_GAME_WORDLENGTH)
    (Attempts lost_game).
Proof.
  split; [exact lost_game_reachable|].
  exact (attempts_are_valid_and_scored (hp := test_helpers)
           (rp := text_reporting) lost_game lost_game_reachable).
Defined.

(** The first guess "drawn" on the created game. *)
Lemma Play_without_error_has_recorded_witness :
  ∃ r g' single',
    Play (hp := test_helpers) (rp := text_reporting) 1 "drawn" blank_game
      blank_created.2 = Some ((r, None), g', single') ∧
    ∃ tw hints,
      validateWord (Helpers := test_helpers) "drawn" (SecretWord blank_game)
        = (tw, None) ∧
      Attempts g' = (Attempts blank_game ++ [mkAttempt tw true hints])%list ∧
      length hints = CONFIG_GAME_WORDLENGTH ∧
      r = turnReport g' (mkAttempt tw true hints) ∧
      Retrieve (Id g') single' = ((Some 1, None), single').
Proof.
  pose proof (Play_without_error_has_recorded (hp := test_helpers)
                (rp := text_reporting) 1 "drawn" blank_game blank_created.2)
    as Hrec.
  destruct (Play (hp := test_helpers) (rp := text_reporting) 1 "drawn"
              blank_game blank_created.2)
    as [[[[r [e|]] g'] single']|] eqn:HP.
  - vm_compute in HP. discriminate HP.
  - exists r, g', single'. split; [reflexivity|].
    exact (Hrec r g' single' eq_refl).
  - vm_compute in HP. discriminate HP.
Defined.

(** [Resign] on the created game, then a guess. *)
Lemma Resign_keeps_game_and_ends_play_witness :
  Id blank_game ≠ "" ∧
  let '(r, g', single') :=
    Resign (rp := text_reporting) 1 blank_game blank_created.2 in
  r.2 = None ∧
  Id g' = Id blank_game ∧ SecretWord g' = SecretWord blank_game ∧
  Attempts g' = Attempts blank_game ∧
  Retrieve (Id blank_game) single' = ((Some 1, None), single') ∧
  Play (hp := test_helpers) (rp := text_reporting) 1 "blank" g' single'
  = Some ((statusReport g', Some (Errorf "game is finished")), g', single').
Proof.
  assert (Hid : Id blank_game ≠ "") by discriminate.
  split; [exact Hid|].
  pose proof (Resign_keeps_game_and_ends_play (hp := test_helpers)
                (rp := text_reporting) 1 blank_game blank_created.2 "blank")
    as Hres.
  destruct (Resign (rp := text_reporting) 1 blank_game blank_created.2)
    as [[r g'] single'].
  exact (Hres single' Hid).
Defined.

(** The status of the lost game and of the won game of the examples. *)
Lemma status_reflects_isWinner_witness :
  (reachable (hp := test_helpers) (rp := text_reporting) lost_game ∧
   Status lost_game = Lost ∧
   Forall (λ a, isWinner (Helpers := test_helpers) a = false)
     (Attempts lost_game) ∧
   length (Attempts lost_game) = 6) ∧
  (reachable (hp := test_helpers) (rp := text_reporting) won_game ∧
   Status won_game = Won ∧
   ∃ a, last (Attempts won_game) = Some a ∧
        isWinner (Helpers := test_helpers) a = true).
Proof.
  destruct (status_reflects_isWinner (hp := test_helpers) (rp := text_reporting)
              lost_game lost_game_reachable) as (Hnone & _ & Hsix).
  destruct (status_reflects_isWinner (hp := test_helpers) (rp := text_reporting)
              won_game won_game_reachable) as (_ & Hwon & _).
  split.
  - split; [exact lost_game_reachable|]. split; [reflexivity|].
    split; [exact (Hnone (or_intror eq_refl))|exact (Hsix eq_refl)].
  - split; [exact won_game_reachable|]. split; [reflexivity|].
    exact (Hwon eq_refl).
Defined.

(** The helpers of the specification only return words of five bytes; the
    lost game of the examples. *)
Lemma Play_never_panics_witness :
  (∀ w s tw, validateWord (Helpers := test_helpers) w s = (tw, None) →
             String.length tw = CONFIG_GAME_WORDLENGTH) ∧
  reachable (hp := test_helpers) (rp := text_reporting) lost_game ∧
  String.length (SecretWord lost_game) = CONFIG_GAME_WORDLENGTH ∧
  Forall (λ a, String.length (TryWord a) = CONFIG_GAME_WORDLENGTH)
    (Attempts lost_game) ∧
  (∀ self tryWord single,
     is_Some (Play (hp := test_helpers) (rp := text_reporting)
                self tryWord lost_game single)).
Proof.
  split; [exact test_helpers_length|].
  split; [exact lost_game_reachable|].
  exact (Play_never_panics (hp := test_helpers) (rp := text_reporting)
           lost_game test_helpers_length lost_game_reachable).
Defined.

(** A secret of four bytes makes [scoreWord] panic; words of five bytes do
    not. *)
Lemma scoreWord_panics_iff_short_witness :
  scoreWord (mkGame "c9k2" InPlay "blan" []) "blank"
    (Some (replicate 5 Grey)) = None ∧
  ¬ (String.length "blank" < CONFIG_GAME_WORDLENGTH ∨
     String.length "drawn" < CONFIG_GAME_WORDLENGTH ∨
     length (replicate 5 Grey) < CONFIG_GAME_WORDLENGTH).
Proof.
  split.
  - apply (proj2 (scoreWord_panics_iff_short
                    (mkGame "c9k2" InPlay "blan" []) "blank"
                    (replicate 5 Grey))).
    left. cbv. lia.
  - intros Hshort.
    apply (proj2 (scoreWord_panics_iff_short
                    (mkGame "c9k2" InPlay "blank" []) "drawn"
                    (replicate 5 Grey))) in Hshort.
    vm_compute in Hshort. discriminate Hshort.
Defined.

(** The guess "lives" against the secret "anime", in a slice of seven
    entries. *)
Lemma scoreWord_writes_five_hints_witness :
  let g := mkGame "c9k2" InPlay "anime" [] in
  let score := replicate 7 Yellow in
  CONFIG_GAME_WORDLENGTH ≤ String.length (SecretWord g) ∧
  CONFIG_GAME_WORDLENGTH ≤ String.length "lives" ∧
  CONFIG_GAME_WORDLENGTH ≤ length score ∧
  ∃ hints,
    scoreWord g "lives" (Some score)
    = Some ((hints ++ drop CONFIG_GAME_WORDLENGTH score)%list, None) ∧
    length hints = CONFIG_GAME_WORDLENGTH ∧
    (∀ j, j < CONFIG_GAME_WORDLENGTH →
          hints !! j = hintAt (SecretWord g) "lives" j ∧
          (hints !! j = Some Green ↔
           index (SecretWord g) j = index "lives" j)).
Proof.
  cbv zeta.
  assert (H1 : CONFIG_GAME_WORDLENGTH
               ≤ String.length (SecretWord (mkGame "c9k2" InPlay "anime" [])))
    by (cbv; lia).
  assert (H2 : CONFIG_GAME_WORDLENGTH ≤ String.length "lives") by (cbv; lia).
  assert (H3 : CONFIG_GAME_WORDLENGTH ≤ length (replicate 7 Yellow))
    by (cbv; lia).
  split; [exact H1|]. split; [exact H2|]. split; [exact H3|].
  exact (scoreWord_writes_five_hints _ "lives" _ H1 H2 H3).
Defined.

(** The letter e of the guess "lives" against the secret "anime", which
    holds it at its last position only. *)
Lemma letter_outside_first_four_never_Yellow_witness :
  let g := mkGame "c9k2" InPlay "anime" [] in
  index "lives" 3 = Some "e"%char ∧
  occurrences "e" (String.substring 0 (CONFIG_GAME_WORDLENGTH - 1)
                     (SecretWord g)) = 0 ∧
  occurrences "e" (SecretWord g) = 1 ∧
  ∃ hints,
    scoreWord g "lives" (Some (replicate 5 Green)) = Some (hints, None) ∧
    hints !! 3
    = Some (if decide (index (SecretWord g) 3 = Some "e"%char)
            then Green else Grey) ∧
    (index (SecretWord g) 3 = Some "e"%char → 3 = CONFIG_GAME_WORDLENGTH - 1).
Proof.
  cbv zeta.
  split; [reflexivity|]. split; [reflexivity|]. split; [reflexivity|].
  refine (letter_outside_first_four_never_Yellow
            (mkGame "c9k2" InPlay "anime" []) "lives" (replicate 5 Green)
            3 "e"%char _ _ _ _ eq_refl _ eq_refl); cbv; (lia || reflexivity).
Defined.
